(** * AgentBridge: the single-slot rendezvous [Mediator] and its two facades

    A shallow embedding of [mediator.py], [agent_receives.py] and
    [agent_sends.py].  The coroutines are given a small-step semantics over
    an explicit task pool: every task carries the program point of the
    coroutine it runs, the scheduler resumes one task for one step at a
    time, and a step that cannot proceed (lock taken, parked on the
    condition, future still pending) is simply not enabled.  Every asyncio
    schedule is one of the interleavings of this semantics. *)

From stdpp Require Import base option list strings gmap.

Set Warnings "-register-all".

(** * Part I: the program *)

(** ** Python values *)

(** A class object: its [__name__], its identity [uid] (two classes defined
    in different modules may share a name, as the [TestModel1] of the three
    test files do) and its direct bases. *)
Inductive pyclass : Type :=
  PyClass (name : string) (uid : nat) (bases : list pyclass).

Definition cls_name (c : pyclass) : string :=
  match c with PyClass n _ _ => n end.

Fixpoint pyclass_eq_dec (a b : pyclass) {struct a} : {a = b} + {a ≠ b}.
Proof.
  destruct a as [n1 u1 bs1], b as [n2 u2 bs2].
  destruct (decide (n1 = n2)) as [Hn|Hn]; [|right; congruence].
  destruct (decide (u1 = u2)) as [Hu|Hu]; [|right; congruence].
  assert ({bs1 = bs2} + {bs1 ≠ bs2}) as [Hb|Hb].
  { clear -pyclass_eq_dec. revert bs2.
    induction bs1 as [|x xs IH]; intros [|y ys];
      [left; reflexivity | right; discriminate | right; discriminate |].
    destruct (pyclass_eq_dec x y) as [Hx|Hx]; [|right; congruence].
    destruct (IH ys) as [Hs|Hs]; [left|right]; congruence. }
  - left; congruence.
  - right; congruence.
Defined.

#[global] Instance pyclass_eq : EqDecision pyclass := pyclass_eq_dec.

(** [issubclass c model]: [model] is [c] or one of its ancestors. *)
Fixpoint issubclass (c model : pyclass) {struct c} : bool :=
  bool_decide (c = model) ||
  match c with
  | PyClass _ _ bs => existsb (fun b => issubclass b model) bs
  end.

(** A pydantic model instance: its class and its field [content]. Two
    instances are [==] when class and fields agree. *)
Record message : Type := Message { msg_class : pyclass; content : string }.

#[global] Instance message_eq : EqDecision message.
Proof. solve_decision. Defined.

Definition isinstance (m : message) (model : pyclass) : bool :=
  issubclass (msg_class m) model.

(** An [asyncio.Future]. *)
Inductive fstate : Type :=
  | Pending
  | Finished (result : message)
  | Cancelled.

Definition done (f : fstate) : bool :=
  match f with Pending => false | _ => true end.

(** The three [ValueError]s of the source, told apart by what they report,
    and the exceptions the interpreter itself can raise. *)
Inductive exn : Type :=
  | ListenerConflict   (* "Ein Listener ist bereits registriert!" *)
  | TypeMismatch       (* "Die Nachricht ist nicht vom erwarteten Typ ..." *)
  | UnknownType        (* "Kein Mediator gefunden für Modell: ..." *)
  | CancelledError
  | AttributeError
  | TypeError.

Inductive value : Type :=
  | VNone
  | VFuture (f : nat)
  | VMessage (m : message).

Inductive result : Type :=
  | Returned (v : value)
  | Raised (e : exn).

(** ** Objects *)

(** A [Mediator] object.  [_locked] is the lock of [_listener_condition];
    the tasks parked in [_listener_condition.wait()] are found in the task
    pool (program point [D_wait]). *)
Record Mediator : Type := mkMediator {
  _model : pyclass;
  _listener : option nat;
  _locked : bool
}.

Definition set_listener (l : option nat) (m : Mediator) : Mediator :=
  mkMediator (_model m) l (_locked m).

Definition set_locked (b : bool) (m : Mediator) : Mediator :=
  mkMediator (_model m) (_listener m) b.

(** [Mediator.__init__] *)
Definition new_mediator (model : pyclass) : Mediator :=
  mkMediator model None false.

(** ** Coroutines *)

(** Program points of [register_listener]. *)
Inductive rpc : Type :=
  | R_enter     (* async with self._listener_condition *)
  | R_check     (* if self._listener is not None: raise *)
  | R_create    (* self._listener = create_future() *)
  | R_notify    (* self._listener_condition.notify_all() *)
  | R_return.   (* return self._listener, leaving the with block *)

(** Program points of [deliver_message]. *)
Inductive dpc : Type :=
  | D_typecheck (* if not isinstance(message, self._model): raise *)
  | D_enter     (* async with self._listener_condition *)
  | D_while     (* while self._listener is None *)
  | D_wait      (* parked in await self._listener_condition.wait() *)
  | D_woken     (* notified, wait() takes the lock again *)
  | D_fulfil    (* if not done(): set_result(message) *)
  | D_reset.    (* self._listener = None, leaving the with block *)

(** Who called [register_listener]: a caller that keeps the future, or a
    facade method that goes on with [return await listener_future]. *)
Inductive cont : Type := KReturn | KAwait.

(** The two facade classes; an object of either holds the dictionary
    [mediators], from a model's [__name__] to its [Mediator]. *)
Inductive facade : Type := Receives | Sends.

#[global] Instance facade_eq : EqDecision facade.
Proof. solve_decision. Defined.

Record Facade : Type := mkFacade {
  kind : facade;
  mediators : gmap string nat
}.

Inductive pc : Type :=
  | InRegister (k : cont) (self : nat) (p : rpc)
  | InDeliver (self : nat) (msg : message) (p : dpc)
  | InReceive (fac : facade) (self : nat) (model : pyclass)
  | InSend (fac : facade) (self : nat) (msg : message)
  | Awaiting (f : nat)
  | Done (r : result).

Record system : Type := mkSystem {
  heap : list Mediator;
  futures : list fstate;
  registries : list Facade;
  tasks : list pc
}.

Definition init : system := mkSystem [] [] [] [].

(** What an observer of a mediator [ch] sees task [t] do: write a fresh
    future into the slot, return that future to the caller of
    [register_listener], resolve it with a message, empty the slot. *)
Inductive event : Type :=
  | Tau
  | Arm (t ch f : nat)
  | Registered (t ch f : nat)
  | Fulfil (t ch f : nat) (m : message)
  | Disarm (t ch : nat).

Definition set_task (t : nat) (p : pc) (s : system) : system :=
  mkSystem (heap s) (futures s) (registries s) (<[t := p]> (tasks s)).

Definition set_mediator (ch : nat) (m : Mediator) (s : system) : system :=
  mkSystem (<[ch := m]> (heap s)) (futures s) (registries s) (tasks s).

Definition set_future (f : nat) (v : fstate) (s : system) : system :=
  mkSystem (heap s) (<[f := v]> (futures s)) (registries s) (tasks s).

Definition create_future (s : system) : nat * system :=
  (length (futures s),
   mkSystem (heap s) (futures s ++ [Pending]) (registries s) (tasks s)).

(** [Condition.notify_all]: every task parked on this mediator's condition
    is made runnable; it still has to take the lock again. *)
Definition wake (ch : nat) (p : pc) : pc :=
  match p with
  | InDeliver ch' m D_wait =>
      if decide (ch' = ch) then InDeliver ch' m D_woken else p
  | _ => p
  end.

Definition notify_all (ch : nat) (s : system) : system :=
  mkSystem (heap s) (futures s) (registries s) (wake ch <$> tasks s).

(** One step of task [t] inside [Mediator.register_listener]. *)
Definition register_listener (self : nat) (k : cont) (p : rpc)
    (t : nat) (s : system) : option (system * event) :=
  med ← heap s !! self;
  match p with
  | R_enter =>
      if _locked med then None
      else Some (set_task t (InRegister k self R_check)
                   (set_mediator self (set_locked true med) s), Tau)
  | R_check =>
      match _listener med with
      | Some _ =>
          Some (set_task t (Done (Raised ListenerConflict))
                  (set_mediator self (set_locked false med) s), Tau)
      | None => Some (set_task t (InRegister k self R_create) s, Tau)
      end
  | R_create =>
      let '(f, s1) := create_future s in
      Some (set_task t (InRegister k self R_notify)
              (set_mediator self (set_listener (Some f) med) s1), Arm t self f)
  | R_notify =>
      Some (set_task t (InRegister k self R_return) (notify_all self s), Tau)
  | R_return =>
      let s1 := set_mediator self (set_locked false med) s in
      match _listener med, k with
      | Some f, KReturn =>
          Some (set_task t (Done (Returned (VFuture f))) s1, Registered t self f)
      | Some f, KAwait => Some (set_task t (Awaiting f) s1, Registered t self f)
      | None, KReturn => Some (set_task t (Done (Returned VNone)) s1, Tau)
      | None, KAwait => Some (set_task t (Done (Raised TypeError)) s1, Tau)
      end
  end.

(** One step of task [t] inside [Mediator.deliver_message]. *)
Definition deliver_message (self : nat) (message : message) (p : dpc)
    (t : nat) (s : system) : option (system * event) :=
  med ← heap s !! self;
  match p with
  | D_typecheck =>
      if isinstance message (_model med)
      then Some (set_task t (InDeliver self message D_enter) s, Tau)
      else Some (set_task t (Done (Raised TypeMismatch)) s, Tau)
  | D_enter | D_woken =>
      if _locked med then None
      else Some (set_task t (InDeliver self message D_while)
                   (set_mediator self (set_locked true med) s), Tau)
  | D_while =>
      match _listener med with
      | None =>
          Some (set_task t (InDeliver self message D_wait)
                  (set_mediator self (set_locked false med) s), Tau)
      | Some _ => Some (set_task t (InDeliver self message D_fulfil) s, Tau)
      end
  | D_wait => None
  | D_fulfil =>
      match _listener med with
      | None =>
          Some (set_task t (Done (Raised AttributeError))
                  (set_mediator self (set_locked false med) s), Tau)
      | Some f =>
          match futures s !! f with
          | Some Pending =>
              Some (set_task t (InDeliver self message D_reset)
                      (set_future f (Finished message) s),
                    Fulfil t self f message)
          | _ => Some (set_task t (InDeliver self message D_reset) s, Tau)
          end
      end
  | D_reset =>
      Some (set_task t (Done (Returned VNone))
              (set_mediator self (mkMediator (_model med) None false) s),
            Disarm t self)
  end.

(** [return await listener_future] *)
Definition await_future (f : nat) (t : nat) (s : system)
    : option (system * event) :=
  match futures s !! f with
  | Some (Finished m) => Some (set_task t (Done (Returned (VMessage m))) s, Tau)
  | Some Cancelled => Some (set_task t (Done (Raised CancelledError)) s, Tau)
  | _ => None
  end.

(** ** The facades *)

Module AgentReceives.

Definition add (self : gmap string nat) (model : pyclass)
    (h : list Mediator) : gmap string nat * list Mediator :=
  let mediator := length h in
  (<[cls_name model := mediator]> self, h ++ [new_mediator model]).

Definition agentReceives (self : gmap string nat) (model : pyclass) : pc :=
  match self !! cls_name model with
  | None => Done (Raised UnknownType)
  | Some mediator => InRegister KAwait mediator R_enter
  end.

Definition sendToAgent (self : gmap string nat) (message : message) : pc :=
  let model_name := cls_name (msg_class message) in
  match self !! model_name with
  | None => Done (Raised UnknownType)
  | Some mediator => InDeliver mediator message D_typecheck
  end.

End AgentReceives.

Module AgentSends.

Definition add (self : gmap string nat) (model : pyclass)
    (h : list Mediator) : gmap string nat * list Mediator :=
  let mediator := length h in
  (<[cls_name model := mediator]> self, h ++ [new_mediator model]).

Definition agentSends (self : gmap string nat) (message : message) : pc :=
  let model_name := cls_name (msg_class message) in
  match self !! model_name with
  | None => Done (Raised UnknownType)
  | Some mediator => InDeliver mediator message D_typecheck
  end.

Definition receiveFromAgent (self : gmap string nat) (model : pyclass) : pc :=
  match self !! cls_name model with
  | None => Done (Raised UnknownType)
  | Some mediator => InRegister KAwait mediator R_enter
  end.

End AgentSends.

Definition facade_add (fac : facade) :=
  match fac with Receives => AgentReceives.add | Sends => AgentSends.add end.

Definition facade_receive (fac : facade) :=
  match fac with
  | Receives => AgentReceives.agentReceives
  | Sends => AgentSends.receiveFromAgent
  end.

Definition facade_send (fac : facade) :=
  match fac with
  | Receives => AgentReceives.sendToAgent
  | Sends => AgentSends.agentSends
  end.

(** ** The scheduler *)

(** What a program can start as a task. *)
Inductive call : Type :=
  | Call_register_listener (mediator : nat)
  | Call_deliver_message (mediator : nat) (message : message)
  | Call_agentReceives (self : nat) (model : pyclass)
  | Call_sendToAgent (self : nat) (message : message)
  | Call_agentSends (self : nat) (message : message)
  | Call_receiveFromAgent (self : nat) (model : pyclass).

Definition entry (c : call) : pc :=
  match c with
  | Call_register_listener ch => InRegister KReturn ch R_enter
  | Call_deliver_message ch m => InDeliver ch m D_typecheck
  | Call_agentReceives r model => InReceive Receives r model
  | Call_sendToAgent r m => InSend Receives r m
  | Call_agentSends r m => InSend Sends r m
  | Call_receiveFromAgent r model => InReceive Sends r model
  end.

Inductive action : Type :=
  | NewMediator (model : pyclass)      (* Mediator(model=model) *)
  | NewFacade (fac : facade)           (* AgentReceives() or AgentSends() *)
  | Add (fac : facade) (self : nat) (model : pyclass)   (* self.add(model) *)
  | Spawn (c : call)                   (* asyncio.create_task(c) *)
  | Run (t : nat)                      (* the loop resumes task t *)
  | Cancel (f : nat).                  (* the holder of a future cancels it *)

(** A method can only be called on an object that exists, and a facade
    method only on an object of that class. *)
Definition is_facade (s : system) (fac : facade) (self : nat) : bool :=
  match registries s !! self with
  | Some obj => bool_decide (kind obj = fac)
  | None => false
  end.

Definition callable (s : system) (c : call) : bool :=
  match c with
  | Call_register_listener ch | Call_deliver_message ch _ =>
      bool_decide (ch < length (heap s))
  | Call_agentReceives r _ | Call_sendToAgent r _ => is_facade s Receives r
  | Call_agentSends r _ | Call_receiveFromAgent r _ => is_facade s Sends r
  end.

(** The next step of task [t], standing at program point [p]. *)
Definition step (p : pc) (t : nat) (s : system) : option (system * event) :=
  match p with
  | InRegister k self q => register_listener self k q t s
  | InDeliver self m q => deliver_message self m q t s
  | InReceive fac self model =>
      obj ← registries s !! self;
      Some (set_task t (facade_receive fac (mediators obj) model) s, Tau)
  | InSend fac self m =>
      obj ← registries s !! self;
      Some (set_task t (facade_send fac (mediators obj) m) s, Tau)
  | Awaiting f => await_future f t s
  | Done _ => None
  end.

Definition exec (s : system) (a : action) : option (system * event) :=
  match a with
  | NewMediator model =>
      Some (mkSystem (heap s ++ [new_mediator model]) (futures s)
              (registries s) (tasks s), Tau)
  | NewFacade fac =>
      Some (mkSystem (heap s) (futures s)
              (registries s ++ [mkFacade fac ∅]) (tasks s), Tau)
  | Add fac self model =>
      obj ← registries s !! self;
      if decide (kind obj = fac)
      then let '(d, h) := facade_add fac (mediators obj) model (heap s) in
           Some (mkSystem h (futures s)
                   (<[self := mkFacade fac d]> (registries s)) (tasks s), Tau)
      else None
  | Spawn c =>
      if callable s c
      then Some (mkSystem (heap s) (futures s) (registries s)
                   (tasks s ++ [entry c]), Tau)
      else None
  | Run t => p ← tasks s !! t; step p t s
  | Cancel f =>
      match futures s !! f with
      | Some Pending => Some (set_future f Cancelled s, Tau)
      | _ => None
      end
  end.

(** A schedule, with the events it produces in order. *)
Fixpoint run (s : system) (acts : list action)
    : option (system * list event) :=
  match acts with
  | [] => Some (s, [])
  | a :: acts' =>
      '(s1, e) ← exec s a;
      '(s2, evs) ← run s1 acts';
      Some (s2, e :: evs)
  end.

Definition reachable (s : system) : Prop :=
  ∃ acts evs, run init acts = Some (s, evs).

(** [await c] from a task that nobody interrupts: the coroutine runs step
    after step until it returns, raises or suspends. *)
Fixpoint drive (fuel : nat) (t : nat) (s : system) : system :=
  match fuel with
  | 0 => s
  | S n =>
      match exec s (Run t) with
      | Some (s', _) => drive n t s'
      | None => s
      end
  end.

Definition await (c : call) (s : system) : option (system * option pc) :=
  '(s1, _) ← exec s (Spawn c);
  let t := length (tasks s) in
  let s2 := drive 8 t s1 in
  Some (s2, tasks s2 !! t).

(** * Part II: vocabulary of the specification *)

(** ** Invariants of the task pool *)

(** The mediator a task is working on, and the mediator whose lock it
    holds. *)
Definition pc_chan (p : pc) : option nat :=
  match p with
  | InRegister _ ch _ | InDeliver ch _ _ => Some ch
  | _ => None
  end.

Definition holder (p : pc) : option nat :=
  match p with
  | InRegister _ ch (R_check | R_create | R_notify | R_return) => Some ch
  | InDeliver ch _ (D_while | D_fulfil | D_reset) => Some ch
  | _ => None
  end.

Definition occupied (med : Mediator) : bool :=
  bool_decide (is_Some (_listener med)).

(** What a task at a given program point may rely on. *)
Definition local_ok (med : Mediator) (p : pc) : bool :=
  match p with
  | InRegister _ _ q =>
      match q with
      | R_enter => true
      | R_check => _locked med
      | R_create => _locked med && negb (occupied med)
      | R_notify | R_return => _locked med && occupied med
      end
  | InDeliver _ m q =>
      match q with
      | D_typecheck => true
      | D_enter | D_wait | D_woken => isinstance m (_model med)
      | D_while => isinstance m (_model med) && _locked med
      | D_fulfil | D_reset =>
          isinstance m (_model med) && (_locked med && occupied med)
      end
  | _ => true
  end.

Definition task_ok (s : system) (p : pc) : Prop :=
  ∀ ch, pc_chan p = Some ch →
    ∃ med, heap s !! ch = Some med ∧ local_ok med p = true.

Definition mutex (s : system) : Prop :=
  ∀ t1 t2 p1 p2 ch,
    tasks s !! t1 = Some p1 → tasks s !! t2 = Some p2 →
    holder p1 = Some ch → holder p2 = Some ch → t1 = t2.

(** Every key of a facade's dictionary is the name of the model its
    mediator is bound to. *)
Definition registry_ok (s : system) : Prop :=
  ∀ r obj k ch,
    registries s !! r = Some obj → mediators obj !! k = Some ch →
    ∃ med, heap s !! ch = Some med ∧ cls_name (_model med) = k.

Record Inv (s : system) : Prop := mkInv {
  inv_tasks : ∀ t p, tasks s !! t = Some p → task_ok s p;
  inv_mutex : mutex s;
  inv_registry : registry_ok s
}.

(** Effects on the task pool other than on the running task: waking. *)
Definition wake_like (W : pc → pc) : Prop :=
  ∀ p, W p = p ∨ ∃ ch m, p = InDeliver ch m D_wait ∧ W p = InDeliver ch m D_woken.

(** [register_listener] on a free, idle mediator, run without interruption:
    it arms the mediator with a fresh pending future, wakes the parked
    senders and hands the future to its caller. *)
Definition registered (k : cont) (f : nat) : pc :=
  match k with
  | KReturn => Done (Returned (VFuture f))
  | KAwait => Awaiting f
  end.

(** What [set_result] under the guard [if not done()] leaves in the store
    of futures. *)
Definition fulfilled (f : nat) (m : message) (futs : list fstate)
    : list fstate :=
  match futs !! f with
  | Some Pending => <[f := Finished m]> futs
  | _ => futs
  end.

Definition TestModel1 : pyclass := PyClass "TestModel1" 1 [].

Definition TestModel2 : pyclass := PyClass "TestModel2" 2 [].

Definition SubModel1 : pyclass := PyClass "SubModel1" 3 [TestModel1].

Definition finished (s : system) (r : result) : system :=
  mkSystem (heap s) (futures s) (registries s) (tasks s ++ [Done r]).

(** ** Ownership invariants: futures and mediators are never shared *)

Record Own (s : system) : Prop := mkOwn {
  own_fresh : ∀ ch med f,
    heap s !! ch = Some med → _listener med = Some f →
    f < length (futures s);
  own_handle : ∀ ch1 ch2 m1 m2 f,
    heap s !! ch1 = Some m1 → heap s !! ch2 = Some m2 →
    _listener m1 = Some f → _listener m2 = Some f → ch1 = ch2;
  own_mediator : ∀ r1 r2 o1 o2 k1 k2 ch,
    registries s !! r1 = Some o1 → mediators o1 !! k1 = Some ch →
    registries s !! r2 = Some o2 → mediators o2 !! k2 = Some ch →
    r1 = r2 ∧ k1 = k2
}.

Definition OtherTestModel1 : pyclass := PyClass "TestModel1" 7 [].

(** A facade whose mediator for [TestModel1] holds a pending listener:
    [add(TestModel1)] followed by [agentReceives(TestModel1)], which is now
    waiting for its future. *)
Definition listening : system :=
  mkSystem [mkMediator TestModel1 (Some 0) false] [Pending]
    [mkFacade Receives {["TestModel1" := 0]}] [Awaiting 0].

(** A task that is past the type check of [deliver_message], or finished
    otherwise than by [TypeMismatch]. *)
Definition past_typecheck (p : pc) : Prop :=
  match p with
  | InDeliver _ _ q => q ≠ D_typecheck
  | Done r => r ≠ Raised TypeMismatch
  | _ => False
  end.

(** [TestModel1] and [TestModel2] both registered, both with a listener
    waiting, as in [test_multiple_models]. *)
Definition listening_both : system :=
  mkSystem [mkMediator TestModel1 (Some 0) false;
            mkMediator TestModel2 (Some 1) false]
    [Pending; Pending]
    [mkFacade Receives (<["TestModel2" := 1]> (<["TestModel1" := 0]> ∅))]
    [Awaiting 0; Awaiting 1].

(** ** The life cycle of the slot *)

Inductive phase : Type := Idle | Arming | Armed.

#[global] Instance phase_eq : EqDecision phase.
Proof. solve_decision. Defined.

(** The phase an event on mediator [ch] leads to, and the one phase it may
    start from: the slot is written when idle, the future is returned after
    the slot was written, the slot is emptied when armed. *)
Definition slot_event (ch : nat) (e : event) : option phase :=
  match e with
  | Arm _ c _ => if decide (c = ch) then Some Arming else None
  | Registered _ c _ => if decide (c = ch) then Some Armed else None
  | Disarm _ c => if decide (c = ch) then Some Idle else None
  | _ => None
  end.




Definition armed (s : system) (ch : nat) : bool :=
  match heap s !! ch with
  | Some med => occupied med
  | None => false
  end.

(** A task that has written the slot and not yet returned. *)
Definition registering (ch : nat) (p : pc) : bool :=
  match p with
  | InRegister _ c (R_notify | R_return) => bool_decide (c = ch)
  | _ => false
  end.



Definition two_registrations : list action :=
  [NewMediator TestModel1;
   Spawn (Call_register_listener 0); Run 0; Run 0; Run 0; Run 0; Run 0;
   Spawn (Call_deliver_message 0 (Message TestModel1 "eins"));
   Run 1; Run 1; Run 1; Run 1; Run 1;
   Spawn (Call_register_listener 0); Run 2; Run 2; Run 2; Run 2; Run 2].

Definition two_registrations_state : system :=
  mkSystem [mkMediator TestModel1 (Some 1) false]
    [Finished (Message TestModel1 "eins"); Pending] []
    [Done (Returned (VFuture 0)); Done (Returned VNone);
     Done (Returned (VFuture 1))].

Definition two_registrations_events : list event :=
  [Tau; Tau; Tau; Tau; Arm 0 0 0; Tau; Registered 0 0 0; Tau; Tau; Tau; Tau;
   Fulfil 1 0 0 (Message TestModel1 "eins"); Disarm 1 0; Tau; Tau; Tau;
   Arm 2 0 1; Tau; Registered 2 0 1].

(** Task [t] is inside [deliver_message ch m], with a message that passes
    the type check, and the slot of [ch] is empty. *)
Definition sender_waits (s : system) (t ch : nat) (m : message) : Prop :=
  armed s ch = false ∧
  ∃ q med, tasks s !! t = Some (InDeliver ch m q) ∧
           heap s !! ch = Some med ∧ isinstance m (_model med) = true.

(** Two senders parked on an idle [Mediator(TestModel1)]. *)
Definition two_parked : system :=
  mkSystem [new_mediator TestModel1] [] []
    [InDeliver 0 (Message TestModel1 "a") D_wait;
     InDeliver 0 (Message TestModel1 "b") D_wait].

(** ** At most one pending handle per mediator *)




(** ** The facade methods as calls *)

(** The receiving and the sending method of a facade of class [fac]. *)
Definition receive_call (fac : facade) (self : nat) (model : pyclass) : call :=
  match fac with
  | Receives => Call_agentReceives self model
  | Sends => Call_receiveFromAgent self model
  end.

Definition send_call (fac : facade) (self : nat) (msg : message) : call :=
  match fac with
  | Receives => Call_sendToAgent self msg
  | Sends => Call_agentSends self msg
  end.

(** The exceptions the source raises itself or lets through from
    [await listener_future]; the other two would come from [None.done()]
    and from [await None]. *)
Definition documented (e : exn) : bool :=
  match e with
  | AttributeError | TypeError => false
  | _ => true
  end.

Definition clean (p : pc) : bool :=
  match p with
  | Done (Raised e) => documented e
  | _ => true
  end.

(** Every task is clean. *)
Definition all_clean (s : system) : Prop :=
  ∀ t p, tasks s !! t = Some p → clean p = true.

(** A taken lock belongs to a task inside the critical section. *)
Definition lock_has_holder (s : system) : Prop :=
  ∀ ch med, heap s !! ch = Some med → _locked med = true →
    ∃ t p, tasks s !! t = Some p ∧ holder p = Some ch.

(** * Part III: invariants and auxiliary results *)

Lemma wake_like_id : wake_like id.
Proof. intros p; by left. Qed.

Lemma wake_like_wake ch : wake_like (wake ch).
Proof.
  intros [k c q|c m q| | | |]; try by left.
  destruct q; try by left.
  simpl. case_decide; [right; eauto | by left].
Qed.

Lemma wake_like_chan W p : wake_like W → pc_chan (W p) = pc_chan p.
Proof. intros HW. destruct (HW p) as [->|(ch & m & -> & ->)]; done. Qed.

Lemma wake_like_holder W p : wake_like W → holder (W p) = holder p.
Proof. intros HW. destruct (HW p) as [->|(ch & m & -> & ->)]; done. Qed.

Lemma wake_like_ok W med p : wake_like W → local_ok med (W p) = local_ok med p.
Proof. intros HW. destruct (HW p) as [->|(ch & m & -> & ->)]; done. Qed.

Lemma holder_chan p ch : holder p = Some ch → pc_chan p = Some ch.
Proof. destruct p as [k c []|c m []| | | |]; simpl; congruence. Qed.

Lemma local_ok_holder med p ch :
  holder p = Some ch → local_ok med p = true → _locked med = true.
Proof.
  destruct p as [k c []|c m []| | | |]; simpl; try discriminate;
    intros _ H; repeat (apply andb_prop in H as [? H]); done.
Qed.

Lemma local_ok_frame med med' p :
  holder p = None → _model med' = _model med →
  local_ok med p = true → local_ok med' p = true.
Proof.
  destruct p as [k c []|c m []| | | |]; simpl; try discriminate;
    intros _ E; rewrite ?E; done.
Qed.

(** The shape of every step of a running task: it replaces its own program
    point, possibly wakes others, and rewrites at most the mediator it
    works on, respecting the lock. *)
Lemma inv_update s t p ch med med' p' W futs' :
  Inv s → tasks s !! t = Some p → heap s !! ch = Some med →
  wake_like W →
  _model med' = _model med →
  (∀ c, pc_chan p' = Some c → c = ch) →
  local_ok med' p' = true →
  (holder p = Some ch ∨ med' = med ∨ _locked med = false) →
  (holder p' = Some ch → holder p = Some ch ∨ _locked med = false) →
  Inv (mkSystem (<[ch := med']> (heap s)) futs' (registries s)
         (<[t := p']> (W <$> tasks s))).
Proof.
  intros HI Ht Hch HW Hmodel Hp' Hok Hmod Hacq.
  assert (Hlt : ch < length (heap s)) by (by eapply lookup_lt_Some).
  assert (Hother : ∀ t' q, t ≠ t' → (W <$> tasks s) !! t' = Some q →
            ∃ q0, tasks s !! t' = Some q0 ∧ q = W q0).
  { intros t' q _ Hq. rewrite list_lookup_fmap in Hq.
    destruct (tasks s !! t') as [q0|]; simplify_eq/=. eauto. }
  assert (Hnohold : ∀ t' q0, t ≠ t' → tasks s !! t' = Some q0 →
            holder q0 = Some ch → med' = med ∧ holder p' ≠ Some ch).
  { intros t' q0 Hne Hq0 Hh.
    assert (_locked med = true) as Hl.
    { destruct (inv_tasks s HI t' q0 Hq0 ch (holder_chan _ _ Hh))
        as (m0 & Hm0 & Hok0). simplify_eq. by eapply local_ok_holder. }
    split.
    - destruct Hmod as [Hh'|[?|?]]; [|done|congruence].
      destruct Hne. by eapply (inv_mutex s HI).
    - intros Hh'. destruct (Hacq Hh') as [Hh''|?]; [|congruence].
      destruct Hne. by eapply (inv_mutex s HI). }
  split; simpl.
  - intros t' q Hq c Hc.
    apply list_lookup_insert_Some in Hq as [(-> & <- & _)|(Hne & Hq)].
    + apply Hp' in Hc as ->. exists med'. simpl.
      by rewrite list_lookup_insert_eq.
    + destruct (Hother t' q Hne Hq) as (q0 & Hq0 & ->).
      rewrite wake_like_chan in Hc by done.
      destruct (inv_tasks s HI t' q0 Hq0 c Hc) as (m0 & Hm0 & Hok0).
      destruct (decide (c = ch)) as [->|Hc'].
      * exists med'. simpl. rewrite list_lookup_insert_eq by done.
        rewrite wake_like_ok by done. split; [done|].
        simplify_eq. destruct (holder q0) as [c'|] eqn:Hh.
        -- assert (c' = ch) as -> by (apply holder_chan in Hh; congruence).
           by destruct (Hnohold t' q0 Hne Hq0 Hh) as [-> _].
        -- by eapply local_ok_frame.
      * exists m0. simpl. rewrite wake_like_ok by done.
        by rewrite list_lookup_insert_ne.
  - intros t1 t2 p1 p2 c H1 H2 Hh1 Hh2.
    apply list_lookup_insert_Some in H1 as [(-> & <- & _)|(Hne1 & H1)];
      apply list_lookup_insert_Some in H2 as [(-> & <- & _)|(Hne2 & H2)];
      [done| | |].
    + destruct (Hother _ _ Hne2 H2) as (q0 & Hq0 & ->).
      rewrite wake_like_holder in Hh2 by done.
      assert (c = ch) as -> by (apply holder_chan in Hh1; eauto).
      by destruct (Hnohold _ _ Hne2 Hq0 Hh2) as [_ []].
    + destruct (Hother _ _ Hne1 H1) as (q0 & Hq0 & ->).
      rewrite wake_like_holder in Hh1 by done.
      assert (c = ch) as -> by (apply holder_chan in Hh2; eauto).
      by destruct (Hnohold _ _ Hne1 Hq0 Hh1) as [_ []].
    + destruct (Hother _ _ Hne1 H1) as (q1 & Hq1 & ->).
      destruct (Hother _ _ Hne2 H2) as (q2 & Hq2 & ->).
      rewrite wake_like_holder in Hh1, Hh2 by done.
      by eapply (inv_mutex s HI).
  - intros r obj k c Hr Hk.
    destruct (inv_registry s HI r obj k c Hr Hk) as (m0 & Hm0 & Hname).
    destruct (decide (c = ch)) as [->|Hc'].
    + exists med'. simpl. rewrite list_lookup_insert_eq by done.
      simplify_eq. by rewrite Hmodel.
    + exists m0. simpl. by rewrite list_lookup_insert_ne.
Qed.

Lemma inv_update_eq s s' t p ch med med' p' W :
  Inv s → tasks s !! t = Some p → heap s !! ch = Some med →
  wake_like W →
  _model med' = _model med →
  (∀ c, pc_chan p' = Some c → c = ch) →
  local_ok med' p' = true →
  (holder p = Some ch ∨ med' = med ∨ _locked med = false) →
  (holder p' = Some ch → holder p = Some ch ∨ _locked med = false) →
  heap s' = <[ch := med']> (heap s) →
  registries s' = registries s →
  tasks s' = <[t := p']> (W <$> tasks s) →
  Inv s'.
Proof.
  intros HI Ht Hch HW Hmodel Hp' Hok Hmod Hacq Hh Hr Hts.
  destruct s' as [h' f' r' ts']; simpl in *; subst.
  by eapply inv_update.
Qed.

Lemma in_task_ok s t p ch med :
  Inv s → tasks s !! t = Some p → pc_chan p = Some ch →
  heap s !! ch = Some med → local_ok med p = true.
Proof.
  intros HI Ht Hc Hm.
  destruct (inv_tasks s HI t p Ht ch Hc) as (m0 & ? & ?). by simplify_eq.
Qed.

Ltac same_heap := simpl; symmetry; by apply list_insert_id.

Ltac same_tasks := simpl; by rewrite list_fmap_id.

Ltac bool_facts :=
  repeat match goal with
         | H : _ && _ = true |- _ => apply andb_prop in H as [? ?]
         | H : negb _ = true |- _ => apply negb_true_iff in H
         | H : bool_decide _ = true |- _ => apply bool_decide_eq_true in H
         | H : bool_decide _ = false |- _ => apply bool_decide_eq_false in H
         | H : is_Some None |- _ => by destruct H
         | H : ¬ is_Some (Some _) |- _ => by destruct H
         end.

Ltac upd t ch med' p' W :=
  eapply (inv_update_eq _ _ t _ ch _ med' p' W);
  [ eassumption | eassumption | eassumption
  | auto using wake_like_id, wake_like_wake
  | reflexivity
  | simpl; naive_solver
  | simpl; bool_facts; subst; simpl;
    rewrite ?bool_decide_eq_true_2 by eauto;
    rewrite ?bool_decide_eq_false_2 by (by intros []);
    try done; try (by repeat (apply andb_true_intro; split))
  | simpl; try (by left); try (by right; left); try (by right; right)
  | simpl; try (by left); try (by right); try done
  | simpl; try done; try same_heap
  | reflexivity
  | simpl; try done; try same_tasks ].

Lemma register_listener_inv s s' e t k ch q :
  Inv s → tasks s !! t = Some (InRegister k ch q) →
  register_listener ch k q t s = Some (s', e) → Inv s'.
Proof.
  intros HI Ht Hstep. unfold register_listener in Hstep.
  destruct (heap s !! ch) as [med|] eqn:Hmed; simpl in Hstep; [|done].
  pose proof (in_task_ok s t _ ch med HI Ht eq_refl Hmed) as Hok.
  destruct med as [model l lk]; unfold occupied in *; simpl in *.
  destruct q; simpl in *.
  - destruct lk; simplify_eq.
    upd t ch (mkMediator model l true) (InRegister k ch R_check) (@id pc).
  - destruct l as [f|]; simplify_eq.
    + upd t ch (mkMediator model (Some f) false)
        (Done (Raised ListenerConflict)) (@id pc).
    + upd t ch (mkMediator model None true) (InRegister k ch R_create) (@id pc).
  - simplify_eq.
    upd t ch (mkMediator model (Some (length (futures s))) lk)
      (InRegister k ch R_notify) (@id pc).
  - simplify_eq.
    upd t ch (mkMediator model l lk) (InRegister k ch R_return) (wake ch).
  - destruct l as [f|], k; simplify_eq.
    + upd t ch (mkMediator model (Some f) false)
        (Done (Returned (VFuture f))) (@id pc).
    + upd t ch (mkMediator model (Some f) false) (Awaiting f) (@id pc).
    + upd t ch (mkMediator model None false)
        (Done (Returned VNone)) (@id pc).
    + upd t ch (mkMediator model None false)
        (Done (Raised TypeError)) (@id pc).
Qed.

Lemma deliver_message_inv s s' e t ch m q :
  Inv s → tasks s !! t = Some (InDeliver ch m q) →
  deliver_message ch m q t s = Some (s', e) → Inv s'.
Proof.
  intros HI Ht Hstep. unfold deliver_message in Hstep.
  destruct (heap s !! ch) as [med|] eqn:Hmed; simpl in Hstep; [|done].
  pose proof (in_task_ok s t _ ch med HI Ht eq_refl Hmed) as Hok.
  destruct med as [model l lk]; unfold occupied in *; simpl in *.
  destruct q; simpl in *.
  - destruct (isinstance m model) eqn:Hi; simplify_eq.
    + upd t ch (mkMediator model l lk) (InDeliver ch m D_enter) (@id pc).
    + upd t ch (mkMediator model l lk) (Done (Raised TypeMismatch)) (@id pc).
  - destruct lk; simplify_eq.
    upd t ch (mkMediator model l true) (InDeliver ch m D_while) (@id pc).
  - destruct l as [f|]; simplify_eq.
    + upd t ch (mkMediator model (Some f) lk) (InDeliver ch m D_fulfil) (@id pc).
    + upd t ch (mkMediator model None false) (InDeliver ch m D_wait) (@id pc).
  - done.
  - destruct lk; simplify_eq.
    upd t ch (mkMediator model l true) (InDeliver ch m D_while) (@id pc).
  - destruct l as [f|]; simplify_eq.
    + destruct (futures s !! f) as [[]|]; simplify_eq;
        upd t ch (mkMediator model (Some f) lk) (InDeliver ch m D_reset) (@id pc).
    + upd t ch (mkMediator model None false)
        (Done (Raised AttributeError)) (@id pc).
  - simplify_eq.
    upd t ch (mkMediator model None false) (Done (Returned VNone)) (@id pc).
Qed.

Lemma set_task_inv s t p p' :
  Inv s → tasks s !! t = Some p → holder p = None → holder p' = None →
  task_ok s p' → Inv (set_task t p' s).
Proof.
  intros HI Ht Hh Hh' Hok. split; simpl.
  - intros t' q Hq c Hc.
    apply list_lookup_insert_Some in Hq as [(-> & <- & _)|(Hne & Hq)].
    + by apply Hok.
    + by apply (inv_tasks s HI t' q Hq).
  - intros t1 t2 p1 p2 c H1 H2 Hh1 Hh2.
    apply list_lookup_insert_Some in H1 as [(-> & <- & _)|(Hne1 & H1)];
      [congruence|].
    apply list_lookup_insert_Some in H2 as [(-> & <- & _)|(Hne2 & H2)];
      [congruence|].
    by eapply (inv_mutex s HI).
  - apply (inv_registry s HI).
Qed.

Lemma step_inv s s' e t p :
  Inv s → tasks s !! t = Some p → step p t s = Some (s', e) → Inv s'.
Proof.
  intros HI Ht Hstep. destruct p as [k ch q|ch m q|fac r model|fac r m|f|res];
    simpl in Hstep.
  - by eapply register_listener_inv.
  - by eapply deliver_message_inv.
  - destruct (registries s !! r) as [obj|] eqn:Hr; simplify_eq/=.
    eapply set_task_inv; eauto.
    + destruct fac; simpl; unfold AgentReceives.agentReceives,
        AgentSends.receiveFromAgent; by case_match.
    + intros c Hc.
      destruct fac; simpl in *; unfold AgentReceives.agentReceives,
        AgentSends.receiveFromAgent in *; case_match; simplify_eq/=;
        destruct (inv_registry s HI r obj _ _ Hr H) as (med & ? & ?); eauto.
  - destruct (registries s !! r) as [obj|] eqn:Hr; simplify_eq/=.
    eapply set_task_inv; eauto.
    + destruct fac; simpl; unfold AgentReceives.sendToAgent,
        AgentSends.agentSends; by case_match.
    + intros c Hc.
      destruct fac; simpl in *; unfold AgentReceives.sendToAgent,
        AgentSends.agentSends in *; case_match; simplify_eq/=;
        destruct (inv_registry s HI r obj _ _ Hr H) as (med & ? & ?); eauto.
  - unfold await_future in Hstep.
    destruct (futures s !! f) as [[]|]; simplify_eq;
      eapply set_task_inv; eauto; by intros c Hc.
  - done.
Qed.

Lemma task_ok_grow s s' h2 p :
  heap s' = heap s ++ h2 → task_ok s p → task_ok s' p.
Proof.
  intros Hh Hok c Hc. destruct (Hok c Hc) as (med & Hm & ?).
  exists med. rewrite Hh. split; [by apply lookup_app_l_Some|done].
Qed.

Lemma add_inv fac s r obj model :
  Inv s → registries s !! r = Some obj →
  Inv (mkSystem (heap s ++ [new_mediator model]) (futures s)
         (<[r := mkFacade fac (<[cls_name model := length (heap s)]>
                                 (mediators obj))]> (registries s))
         (tasks s)).
Proof.
  intros HI Hr. split; simpl.
  - intros t p Hp. eapply task_ok_grow; [done|]. by eapply (inv_tasks s HI).
  - apply (inv_mutex s HI).
  - intros r' obj' k c Hr' Hk; simpl in *.
    apply list_lookup_insert_Some in Hr' as [(<- & <- & _)|(Hne & Hr')];
      simpl in *.
    + apply lookup_insert_Some in Hk as [[<- <-]|[Hne Hk]].
      * exists (new_mediator model). split; [|done].
        by rewrite lookup_app_r, Nat.sub_diag by done.
      * destruct (inv_registry s HI r obj k c Hr Hk) as (med & ? & ?).
        exists med. split; [by apply lookup_app_l_Some|done].
    + destruct (inv_registry s HI r' obj' k c Hr' Hk) as (med & ? & ?).
      exists med. split; [by apply lookup_app_l_Some|done].
Qed.

Lemma exec_inv s s' e a : Inv s → exec s a = Some (s', e) → Inv s'.
Proof.
  intros HI Hex. destruct a as [model|fac|fac r model|c|t|f]; simpl in Hex.
  - simplify_eq. split; simpl.
    + intros t p Hp. eapply task_ok_grow; [done|]. by eapply (inv_tasks s HI).
    + apply (inv_mutex s HI).
    + intros r obj k c Hr Hk.
      destruct (inv_registry s HI r obj k c Hr Hk) as (med & ? & ?).
      exists med. split; [by apply lookup_app_l_Some|done].
  - simplify_eq. split; simpl.
    + apply (inv_tasks s HI).
    + apply (inv_mutex s HI).
    + intros r obj k c Hr Hk; simpl in *.
      apply lookup_app_Some in Hr as [Hr|[_ Hr]].
      * by eapply (inv_registry s HI).
      * apply list_lookup_singleton_Some in Hr as [_ <-]. done.
  - destruct (registries s !! r) as [obj|] eqn:Hr; simpl in Hex; [|done].
    case_decide; [|done].
    destruct fac; simpl in Hex; simplify_eq; by apply add_inv.
  - destruct (callable s c) eqn:Hc; simplify_eq. split; simpl.
    + intros t p Hp.
      apply lookup_app_Some in Hp as [Hp|[_ Hp]];
        [by eapply (inv_tasks s HI)|].
      apply list_lookup_singleton_Some in Hp as [_ <-].
      intros ch Hch. destruct c; simplify_eq/=;
        apply bool_decide_eq_true in Hc;
        apply lookup_lt_is_Some_2 in Hc as [med Hmed]; eauto.
    + intros t1 t2 p1 p2 ch H1 H2 Hh1 Hh2; simpl in *.
      apply lookup_app_Some in H1 as [H1|[_ H1]];
        [|apply list_lookup_singleton_Some in H1 as [_ <-]; by destruct c].
      apply lookup_app_Some in H2 as [H2|[_ H2]];
        [|apply list_lookup_singleton_Some in H2 as [_ <-]; by destruct c].
      by eapply (inv_mutex s HI).
    + apply (inv_registry s HI).
  - destruct (tasks s !! t) as [p|] eqn:Ht; simpl in Hex; [|done].
    by eapply step_inv.
  - destruct (futures s !! f) as [[]|]; simplify_eq.
    destruct HI as [H1 H2 H3]. by split.
Qed.

Lemma init_inv : Inv init.
Proof. split; [by intros [] | by intros [] | by intros []]. Qed.

Lemma run_inv s s' acts evs : Inv s → run s acts = Some (s', evs) → Inv s'.
Proof.
  revert s s' evs. induction acts as [|a acts IH]; intros s s' evs HI Hrun;
    simpl in Hrun; [by simplify_eq|].
  destruct (exec s a) as [[s1 e]|] eqn:Hex; simpl in Hrun; [|done].
  destruct (run s1 acts) as [[s2 evs2]|] eqn:Hrun2; simplify_eq/=.
  eapply IH; [|done]. by eapply exec_inv.
Qed.

Lemma reachable_inv s : reachable s → Inv s.
Proof. intros (acts & evs & Hrun). eapply run_inv; [apply init_inv|done]. Qed.

Lemma tasks_set_task s t p p' :
  tasks s !! t = Some p → tasks (set_task t p' s) !! t = Some p'.
Proof. intros H. simpl. apply list_lookup_insert_eq. by eapply lookup_lt_Some. Qed.

Lemma drive_step fuel t s s' e :
  exec s (Run t) = Some (s', e) → drive (S fuel) t s = drive fuel t s'.
Proof. intros H. cbn [drive]. by rewrite H. Qed.

Lemma drive_stop fuel t s : exec s (Run t) = None → drive fuel t s = s.
Proof. intros H. destruct fuel; cbn [drive]; [done|]. by rewrite H. Qed.

Lemma exec_done s t r : tasks s !! t = Some (Done r) → exec s (Run t) = None.
Proof. intros H. simpl. by rewrite H. Qed.

Lemma exec_parked s t ch m :
  tasks s !! t = Some (InDeliver ch m D_wait) → exec s (Run t) = None.
Proof.
  intros H. simpl. rewrite H. simpl. unfold deliver_message.
  by destruct (heap s !! ch).
Qed.

#[global] Arguments isinstance : simpl never.

Ltac lengths :=
  repeat first [rewrite length_insert | rewrite length_fmap
               | rewrite length_app]; simpl; lia.

Ltac lookups :=
  repeat first
    [ rewrite list_lookup_insert_eq by lengths
    | rewrite list_lookup_insert_ne by done
    | rewrite list_lookup_fmap
    | match goal with
      | H : ?l !! ?i = _ |- context [?l !! ?i] => rewrite H
      | H : isinstance ?m ?c = _ |- context [isinstance ?m ?c] => rewrite H
      end ].

Ltac run_here :=
  simpl; lookups; simpl;
  unfold register_listener, deliver_message, await_future;
  simpl; lookups; simpl; lookups; simpl; try reflexivity.

Ltac run_one := erewrite drive_step; [|run_here].

Lemma register_alone s t k ch med fuel :
  tasks s !! t = Some (InRegister k ch R_enter) →
  heap s !! ch = Some med → _locked med = false → _listener med = None →
  drive (5 + fuel) t s =
  drive fuel t
    (mkSystem (<[ch := mkMediator (_model med) (Some (length (futures s))) false]>
                 (heap s))
       (futures s ++ [Pending]) (registries s)
       (<[t := registered k (length (futures s))]> (wake ch <$> tasks s))).
Proof.
  intros Ht Hm Hl Hn.
  assert (Hlt : t < length (tasks s)) by (by eapply lookup_lt_Some).
  assert (Hlc : ch < length (heap s)) by (by eapply lookup_lt_Some).
  destruct med as [model l lk]; simpl in Hl, Hn; subst.
  change (5 + fuel) with (S (S (S (S (S fuel))))).
  do 4 run_one. destruct k; run_one; f_equal;
    unfold set_task, set_mediator, notify_all; simpl;
    by rewrite ?list_fmap_insert, ?list_insert_insert_eq.
Qed.

(** [deliver_message] of a message of the right type on a free, armed
    mediator, run without interruption. *)
Lemma deliver_armed s t ch med m f fuel :
  tasks s !! t = Some (InDeliver ch m D_typecheck) →
  heap s !! ch = Some med → _locked med = false → _listener med = Some f →
  isinstance m (_model med) = true →
  drive (5 + fuel) t s =
  drive fuel t
    (mkSystem (<[ch := mkMediator (_model med) None false]> (heap s))
       (fulfilled f m (futures s)) (registries s)
       (<[t := Done (Returned VNone)]> (tasks s))).
Proof.
  intros Ht Hm Hl Hn Hi.
  assert (Hlt : t < length (tasks s)) by (by eapply lookup_lt_Some).
  assert (Hlc : ch < length (heap s)) by (by eapply lookup_lt_Some).
  destruct med as [model l lk]; simpl in Hl, Hn, Hi; subst.
  change (5 + fuel) with (S (S (S (S (S fuel))))).
  do 3 run_one. unfold fulfilled.
  destruct (futures s !! f) as [[| |]|] eqn:Hf; do 2 run_one; f_equal;
    unfold set_task, set_mediator, set_future; simpl;
    by rewrite ?list_insert_insert_eq.
Qed.

(** The same on a free, idle mediator: the sender parks on the condition
    and nothing else changes. *)
Lemma deliver_idle s t ch med m fuel :
  tasks s !! t = Some (InDeliver ch m D_typecheck) →
  heap s !! ch = Some med → _locked med = false → _listener med = None →
  isinstance m (_model med) = true →
  drive (3 + fuel) t s = set_task t (InDeliver ch m D_wait) s.
Proof.
  intros Ht Hm Hl Hn Hi.
  assert (Hlt : t < length (tasks s)) by (by eapply lookup_lt_Some).
  assert (Hlc : ch < length (heap s)) by (by eapply lookup_lt_Some).
  destruct med as [model l lk]; simpl in Hl, Hn, Hi; subst.
  change (3 + fuel) with (S (S (S fuel))).
  do 3 run_one. rewrite drive_stop.
  - unfold set_task, set_mediator; simpl. destruct s as [h fs rs ts]; simpl in *.
    f_equal; rewrite ?list_insert_insert_eq; [|done].
    by apply list_insert_id.
  - eapply exec_parked. simpl. by lookups.
Qed.

Lemma insert_last {A} (l : list A) (x y : A) :
  <[length l := y]> (l ++ [x]) = l ++ [y].
Proof.
  replace (length l) with (length l + 0) by lia.
  by rewrite insert_app_r.
Qed.

Lemma lookup_last {A} (l : list A) (x : A) : (l ++ [x]) !! length l = Some x.
Proof. by rewrite lookup_app_r, Nat.sub_diag. Qed.

Lemma issubclass_refl c : issubclass c c = true.
Proof. destruct c. simpl. by rewrite bool_decide_eq_true_2. Qed.

Lemma isinstance_own m : isinstance m (msg_class m) = true.
Proof. apply issubclass_refl. Qed.

(** ** Sequential calls, as the tests of [test_mediator.py] make them *)

Lemma await_register_idle s ch med :
  heap s !! ch = Some med → _locked med = false → _listener med = None →
  await (Call_register_listener ch) s =
  Some (mkSystem
          (<[ch := mkMediator (_model med) (Some (length (futures s))) false]>
             (heap s))
          (futures s ++ [Pending]) (registries s)
          ((wake ch <$> tasks s)
             ++ [Done (Returned (VFuture (length (futures s))))]),
        Some (Done (Returned (VFuture (length (futures s)))))).
Proof.
  intros Hm Hl Hn. unfold await. cbn [exec callable].
  rewrite bool_decide_eq_true_2 by (by eapply lookup_lt_Some).
  cbn [mbind option_bind].
  rewrite (register_alone _ _ KReturn ch med 3);
    [|apply lookup_last|done..].
  cbn [tasks heap futures registries registered entry].
  rewrite fmap_app. cbn [fmap list_fmap wake].
  replace (length (tasks s)) with (length (wake ch <$> tasks s))
    by apply length_fmap.
  rewrite insert_last, drive_stop.
  - cbn [tasks]. by rewrite lookup_last.
  - eapply exec_done. apply lookup_last.
Qed.

Lemma await_deliver_armed s ch med m f :
  heap s !! ch = Some med → _locked med = false → _listener med = Some f →
  isinstance m (_model med) = true →
  await (Call_deliver_message ch m) s =
  Some (mkSystem (<[ch := mkMediator (_model med) None false]> (heap s))
          (fulfilled f m (futures s)) (registries s)
          (tasks s ++ [Done (Returned VNone)]),
        Some (Done (Returned VNone))).
Proof.
  intros Hm Hl Hn Hi. unfold await. cbn [exec callable].
  rewrite bool_decide_eq_true_2 by (by eapply lookup_lt_Some).
  cbn [mbind option_bind].
  rewrite (deliver_armed _ _ ch med m f 3);
    [|apply lookup_last|done..].
  cbn [tasks heap futures registries entry].
  rewrite insert_last, drive_stop.
  - cbn [tasks]. by rewrite lookup_last.
  - eapply exec_done. apply lookup_last.
Qed.

Lemma await_deliver_idle s ch med m :
  heap s !! ch = Some med → _locked med = false → _listener med = None →
  isinstance m (_model med) = true →
  await (Call_deliver_message ch m) s =
  Some (mkSystem (heap s) (futures s) (registries s)
          (tasks s ++ [InDeliver ch m D_wait]),
        Some (InDeliver ch m D_wait)).
Proof.
  intros Hm Hl Hn Hi. unfold await. cbn [exec callable].
  rewrite bool_decide_eq_true_2 by (by eapply lookup_lt_Some).
  cbn [mbind option_bind].
  rewrite (deliver_idle _ _ ch med m 5);
    [|apply lookup_last|done..].
  unfold set_task. cbn [tasks heap futures registries entry].
  by rewrite insert_last, lookup_last.
Qed.

Lemma register_armed s t k ch med f fuel :
  tasks s !! t = Some (InRegister k ch R_enter) →
  heap s !! ch = Some med → _locked med = false → _listener med = Some f →
  drive (2 + fuel) t s = set_task t (Done (Raised ListenerConflict)) s.
Proof.
  intros Ht Hm Hl Hn.
  assert (Hlt : t < length (tasks s)) by (by eapply lookup_lt_Some).
  assert (Hlc : ch < length (heap s)) by (by eapply lookup_lt_Some).
  destruct med as [model l lk]; simpl in Hl, Hn; subst.
  change (2 + fuel) with (S (S fuel)).
  do 2 run_one. rewrite drive_stop.
  - unfold set_task, set_mediator; simpl. destruct s as [h fs rs ts]; simpl in *.
    f_equal; rewrite ?list_insert_insert_eq; [|done].
    by apply list_insert_id.
  - eapply exec_done. simpl. by lookups.
Qed.

Lemma await_facade s c fac r obj p res :
  registries s !! r = Some obj → kind obj = fac →
  callable s c = is_facade s fac r →
  entry c = p → step p (length (tasks s))
                  (mkSystem (heap s) (futures s) (registries s)
                     (tasks s ++ [p]))
                = Some (set_task (length (tasks s)) (Done res)
                          (mkSystem (heap s) (futures s) (registries s)
                             (tasks s ++ [p])), Tau) →
  await c s = Some (finished s res, Some (Done res)).
Proof.
  intros Hr Hk Hc Hp Hstep. unfold await. cbn [exec].
  rewrite Hc. unfold is_facade. rewrite Hr, bool_decide_eq_true_2 by done.
  cbn [mbind option_bind]. rewrite Hp.
  change 8 with (S 7). erewrite drive_step.
  2:{ cbn [exec tasks]. rewrite lookup_last. cbn [mbind option_bind].
      apply Hstep. }
  rewrite drive_stop.
  - unfold set_task, finished. cbn [tasks heap futures registries].
    by rewrite insert_last, lookup_last.
  - eapply exec_done. unfold set_task. cbn [tasks].
    rewrite insert_last. apply lookup_last.
Qed.

(** ** What one step can touch *)

Ltac step_cases H :=
  unfold step, register_listener, deliver_message, await_future,
    facade_receive, facade_send, AgentReceives.agentReceives,
    AgentReceives.sendToAgent, AgentSends.agentSends,
    AgentSends.receiveFromAgent, create_future in H;
  repeat (first
    [ progress simplify_eq/=
    | match goal with
      | H : (?x ≫= _) = Some _ |- _ => destruct x eqn:?
      end
    | case_match ]).

Lemma step_registries p t s s' e :
  step p t s = Some (s', e) → registries s' = registries s.
Proof. intros H. destruct p; step_cases H; done. Qed.

Lemma step_heap_length p t s s' e :
  step p t s = Some (s', e) → length (heap s') = length (heap s).
Proof.
  intros H. destruct p; step_cases H; simpl; by rewrite ?length_insert.
Qed.

Lemma step_heap_other p t s s' e ch :
  step p t s = Some (s', e) → pc_chan p ≠ Some ch →
  heap s' !! ch = heap s !! ch.
Proof.
  intros H Hne. destruct p; step_cases H; simpl in *; try done;
    by rewrite list_lookup_insert_ne by congruence.
Qed.

Lemma step_mediator p t s s' e ch med' :
  step p t s = Some (s', e) → heap s' !! ch = Some med' →
  ∃ med, heap s !! ch = Some med ∧ _model med' = _model med ∧
    (_listener med' = _listener med ∨ _listener med' = None ∨
     (_listener med' = Some (length (futures s)) ∧ pc_chan p = Some ch ∧
      futures s' = futures s ++ [Pending])).
Proof.
  intros H Hm. destruct (decide (pc_chan p = Some ch)) as [Hc|Hc].
  - destruct p; simplify_eq/=; step_cases H; simpl in *;
      try (rewrite list_lookup_insert_eq in Hm by (by eapply lookup_lt_Some));
      simplify_eq/=; eauto 10.
  - rewrite (step_heap_other _ _ _ _ _ _ H Hc) in Hm. eauto 10.
Qed.

Lemma step_futures p t s s' e :
  step p t s = Some (s', e) →
  futures s' = futures s ∨ futures s' = futures s ++ [Pending] ∨
  ∃ ch med f m,
    p = InDeliver ch m D_fulfil ∧ e = Fulfil t ch f m ∧
    heap s !! ch = Some med ∧ _listener med = Some f ∧
    futures s !! f = Some Pending ∧
    futures s' = <[f := Finished m]> (futures s).
Proof.
  intros H. destruct p; step_cases H; simpl; eauto 12.
Qed.

Lemma step_futures_length p t s s' e :
  step p t s = Some (s', e) → length (futures s) ≤ length (futures s').
Proof.
  intros H. destruct (step_futures _ _ _ _ _ H)
    as [->|[->|(ch & med & f & m & _ & _ & _ & _ & _ & ->)]];
    rewrite ?length_app, ?length_insert; lia.
Qed.

Lemma step_own p t s s' e : Own s → step p t s = Some (s', e) → Own s'.
Proof.
  intros HO Hstep. pose proof (step_futures_length _ _ _ _ _ Hstep) as Hlen.
  assert (Hold : ∀ ch med' f, heap s' !! ch = Some med' →
            _listener med' = Some f →
            (∃ med, heap s !! ch = Some med ∧ _listener med = Some f ∧
                    f < length (futures s)) ∨
            (f = length (futures s) ∧ pc_chan p = Some ch ∧
             futures s' = futures s ++ [Pending])).
  { intros ch med' f Hm Hl.
    destruct (step_mediator _ _ _ _ _ _ _ Hstep Hm)
      as (med & Hmed & _ & [Heq|[Heq|(Heq & Hc & Hf)]]).
    - left. exists med. rewrite <- Heq. split_and!; [done..|].
      eapply (own_fresh s HO); [done|congruence].
    - congruence.
    - right. split_and!; [congruence|done..]. }
  split.
  - intros ch med' f Hm Hl.
    destruct (Hold _ _ _ Hm Hl) as [(med & _ & _ & ?)|(-> & _ & ->)];
      [lia|rewrite length_app; simpl; lia].
  - intros ch1 ch2 m1 m2 f H1 H2 Hl1 Hl2.
    destruct (Hold _ _ _ H1 Hl1) as [(n1 & Hn1 & Hf1 & ?)|(-> & Hc1 & _)];
      destruct (Hold _ _ _ H2 Hl2) as [(n2 & Hn2 & Hf2 & ?)|(Hf2 & Hc2 & _)];
      [by eapply (own_handle s HO)|lia|lia|congruence].
  - rewrite (step_registries _ _ _ _ _ Hstep). apply (own_mediator s HO).
Qed.

Lemma add_own fac s r obj model :
  Inv s → Own s → registries s !! r = Some obj →
  Own (mkSystem (heap s ++ [new_mediator model]) (futures s)
         (<[r := mkFacade fac (<[cls_name model := length (heap s)]>
                                 (mediators obj))]> (registries s))
         (tasks s)).
Proof.
  intros HI HO Hr.
  assert (Hbound : ∀ r' o' k' c, registries s !! r' = Some o' →
            mediators o' !! k' = Some c → c < length (heap s)).
  { intros r' o' k' c Hr' Hk'.
    destruct (inv_registry s HI _ _ _ _ Hr' Hk') as (med & Hmed & _).
    by eapply lookup_lt_Some. }
  assert (Hlook : ∀ r' o' k' c,
            <[r := mkFacade fac (<[cls_name model := length (heap s)]>
                                   (mediators obj))]> (registries s) !! r'
              = Some o' → mediators o' !! k' = Some c →
            (r' = r ∧ k' = cls_name model ∧ c = length (heap s)) ∨
            (c < length (heap s) ∧ ∃ o, registries s !! r' = Some o ∧
                                        mediators o !! k' = Some c)).
  { intros r' o' k' c Hr' Hk'.
    apply list_lookup_insert_Some in Hr' as [(<- & <- & _)|(Hne & Hr')];
      simpl in *.
    - apply lookup_insert_Some in Hk' as [[<- <-]|[Hne Hk']]; [by left|].
      right. split; [by eapply Hbound|eauto].
    - right. split; [by eapply Hbound|eauto]. }
  split; simpl.
  - intros ch med f Hm Hl.
    apply lookup_app_Some in Hm as [Hm|[_ Hm]];
      [by eapply (own_fresh s HO)|].
    apply list_lookup_singleton_Some in Hm as [_ <-]. done.
  - intros ch1 ch2 m1 m2 f H1 H2 Hl1 Hl2.
    apply lookup_app_Some in H1 as [H1|[_ H1]];
      [|apply list_lookup_singleton_Some in H1 as [_ <-]; done].
    apply lookup_app_Some in H2 as [H2|[_ H2]];
      [|apply list_lookup_singleton_Some in H2 as [_ <-]; done].
    by eapply (own_handle s HO).
  - intros r1 r2 o1 o2 k1 k2 ch H1 Hk1 H2 Hk2.
    destruct (Hlook _ _ _ _ H1 Hk1) as [(-> & -> & ->)|(Hlt1 & o & Ho1 & Hc1)];
      destruct (Hlook _ _ _ _ H2 Hk2) as [(-> & -> & Hc)|(Hlt2 & o' & Ho2 & Hc2)];
      [done|lia|lia|by eapply (own_mediator s HO)].
Qed.

Lemma exec_own s s' e a : Inv s → Own s → exec s a = Some (s', e) → Own s'.
Proof.
  intros HI HO Hex. destruct a as [model|fac|fac r model|c|t|f]; simpl in Hex.
  - simplify_eq. split; simpl.
    + intros ch med f Hm Hl.
      apply lookup_app_Some in Hm as [Hm|[_ Hm]];
        [by eapply (own_fresh s HO)|].
      apply list_lookup_singleton_Some in Hm as [_ <-]. done.
    + intros ch1 ch2 m1 m2 f H1 H2 Hl1 Hl2.
      apply lookup_app_Some in H1 as [H1|[_ H1]];
        [|apply list_lookup_singleton_Some in H1 as [_ <-]; done].
      apply lookup_app_Some in H2 as [H2|[_ H2]];
        [|apply list_lookup_singleton_Some in H2 as [_ <-]; done].
      by eapply (own_handle s HO).
    + apply (own_mediator s HO).
  - simplify_eq. split; simpl.
    + apply (own_fresh s HO).
    + apply (own_handle s HO).
    + intros r1 r2 o1 o2 k1 k2 ch H1 Hk1 H2 Hk2.
      apply lookup_app_Some in H1 as [H1|[_ H1]];
        [|apply list_lookup_singleton_Some in H1 as [_ <-]; done].
      apply lookup_app_Some in H2 as [H2|[_ H2]];
        [|apply list_lookup_singleton_Some in H2 as [_ <-]; done].
      by eapply (own_mediator s HO).
  - destruct (registries s !! r) as [obj|] eqn:Hr; simpl in Hex; [|done].
    case_decide; [|done].
    destruct fac; simpl in Hex; simplify_eq; by apply add_own.
  - destruct (callable s c); simplify_eq. destruct HO as [H1 H2 H3]. by split.
  - destruct (tasks s !! t) as [p|] eqn:Ht; simpl in Hex; [|done].
    by eapply step_own.
  - destruct (futures s !! f) as [[]|]; simplify_eq.
    destruct HO as [H1 H2 H3]. split; simpl; [|done..].
    intros ch med f' Hm Hl. rewrite length_insert. by eapply H1.
Qed.

Lemma init_own : Own init.
Proof. split; by intros []. Qed.

Lemma run_own s s' acts evs :
  Inv s → Own s → run s acts = Some (s', evs) → Own s'.
Proof.
  revert s s' evs. induction acts as [|a acts IH]; intros s s' evs HI HO Hrun;
    simpl in Hrun; [by simplify_eq|].
  destruct (exec s a) as [[s1 e]|] eqn:Hex; simpl in Hrun; [|done].
  destruct (run s1 acts) as [[s2 evs2]|] eqn:Hrun2; simplify_eq/=.
  eapply IH; [| |done]; [by eapply exec_inv|by eapply exec_own].
Qed.

Lemma reachable_own s : reachable s → Own s.
Proof.
  intros (acts & evs & Hrun).
  eapply run_own; [apply init_inv|apply init_own|done].
Qed.

Lemma step_past_typecheck p t s s' e :
  tasks s !! t = Some p → past_typecheck p → step p t s = Some (s', e) →
  ∃ p', tasks s' !! t = Some p' ∧ past_typecheck p'.
Proof.
  intros Ht Hp Hstep.
  assert (Hlt : t < length (tasks s)) by (by eapply lookup_lt_Some).
  destruct p as [| ch m q | | | |]; try done.
  destruct q; try done; step_cases Hstep; simpl;
    rewrite list_lookup_insert_eq by lengths; eexists; split; done.
Qed.

Lemma drive_past_typecheck fuel t s p :
  tasks s !! t = Some p → past_typecheck p →
  ∃ p', tasks (drive fuel t s) !! t = Some p' ∧ past_typecheck p'.
Proof.
  revert s p. induction fuel as [|fuel IH]; intros s p Ht Hp; [by eauto|].
  cbn [drive]. destruct (exec s (Run t)) as [[s' e]|] eqn:Hex; [|by eauto].
  simpl in Hex. rewrite Ht in Hex. simpl in Hex.
  destruct (step_past_typecheck _ _ _ _ _ Ht Hp Hex) as (p' & Ht' & Hp').
  by eapply IH.
Qed.






Ltac shape W :=
  eexists _, W; split; [auto using wake_like_id, wake_like_wake|];
  split; [simpl; rewrite ?list_fmap_id; reflexivity|].

Ltac slot_facts self ch :=
  intros ch; unfold slot_event, armed, occupied; simpl;
  destruct (decide (self = ch)) as [->|?]; simpl;
  rewrite ?list_lookup_insert_eq by lengths;
  rewrite ?list_lookup_insert_ne by done;
  rewrite ?lookup_app_l by lengths;
  repeat match goal with
         | H : ?l !! ?i = _ |- context [?l !! ?i] => rewrite H
         end; simpl;
  rewrite ?bool_decide_eq_true_2 by eauto;
  rewrite ?bool_decide_eq_false_2 by (by intros []);
  rewrite ?bool_decide_eq_false_2 by done;
  try done.

(** What one step of a task does to the phase of each slot. *)
Lemma step_summary p t s s' e :
  Inv s → tasks s !! t = Some p → step p t s = Some (s', e) →
  ∃ p' W, wake_like W ∧ tasks s' = <[t := p']> (W <$> tasks s) ∧
    ∀ ch,
      match slot_event ch e with
      | Some Arming =>
          holder p = Some ch ∧ registering ch p = false ∧
          registering ch p' = true ∧ armed s ch = false ∧ armed s' ch = true
      | Some Armed =>
          holder p = Some ch ∧ registering ch p = true ∧
          registering ch p' = false ∧ armed s ch = true ∧ armed s' ch = true
      | Some Idle =>
          holder p = Some ch ∧ registering ch p = false ∧
          registering ch p' = false ∧ armed s ch = true ∧ armed s' ch = false
      | None =>
          armed s' ch = armed s ch ∧ registering ch p' = registering ch p
      end.
Proof.
  intros HI Ht Hstep.
  assert (Hlt : t < length (tasks s)) by (by eapply lookup_lt_Some).
  destruct p as [k self q|self m q|fac r model|fac r m|f|res].
  - destruct (inv_tasks s HI t _ Ht self eq_refl) as (med & Hmed & Hok).
    assert (Hlc : self < length (heap s)) by (by eapply lookup_lt_Some).
    destruct med as [model l lk]; unfold occupied in Hok; simpl in Hok.
    destruct q; step_cases Hstep; bool_facts.
    all: try (shape (@id pc); slot_facts self ch).
    all: try (shape (wake self); slot_facts self ch).
  - destruct (inv_tasks s HI t _ Ht self eq_refl) as (med & Hmed & Hok).
    assert (Hlc : self < length (heap s)) by (by eapply lookup_lt_Some).
    destruct med as [model l lk]; unfold occupied in Hok; simpl in Hok.
    destruct q; step_cases Hstep; bool_facts.
    all: try (shape (@id pc); slot_facts self ch).
  - step_cases Hstep; shape (@id pc); intros ch; simpl; split; try done.
  - step_cases Hstep; shape (@id pc); intros ch; simpl; split; try done.
  - step_cases Hstep; shape (@id pc); intros ch; simpl; split; try done.
  - done.
Qed.


Lemma armed_grow s s' model ch :
  heap s' = heap s ++ [new_mediator model] → armed s' ch = armed s ch.
Proof.
  intros Hh. unfold armed. rewrite Hh.
  destruct (decide (ch < length (heap s))) as [Hlt|Hge].
  - by rewrite lookup_app_l.
  - rewrite (lookup_ge_None_2 (heap s)) by lia.
    destruct (decide (ch = length (heap s))) as [->|Hne].
    + by rewrite lookup_last.
    + rewrite lookup_ge_None_2; [done|]. rewrite length_app. simpl. lia.
Qed.







(** A woken sender that finds the mediator free and armed delivers. *)
Lemma woken_armed s t ch med m f fuel :
  tasks s !! t = Some (InDeliver ch m D_woken) →
  heap s !! ch = Some med → _locked med = false → _listener med = Some f →
  drive (4 + fuel) t s =
  mkSystem (<[ch := mkMediator (_model med) None false]> (heap s))
    (fulfilled f m (futures s)) (registries s)
    (<[t := Done (Returned VNone)]> (tasks s)).
Proof.
  intros Ht Hm Hl Hn.
  assert (Hlt : t < length (tasks s)) by (by eapply lookup_lt_Some).
  assert (Hlc : ch < length (heap s)) by (by eapply lookup_lt_Some).
  destruct med as [model l lk]; simpl in Hl, Hn; subst.
  change (4 + fuel) with (S (S (S (S fuel)))).
  do 2 run_one. unfold fulfilled.
  destruct (futures s !! f) as [[| |]|] eqn:Hf; do 2 run_one;
    (rewrite drive_stop; [|eapply exec_done; simpl; by lookups]);
    unfold set_task, set_mediator, set_future; simpl; f_equal;
    by rewrite ?list_insert_insert_eq.
Qed.

(** A woken sender that finds the mediator free but idle parks again. *)
Lemma woken_idle s t ch med m fuel :
  tasks s !! t = Some (InDeliver ch m D_woken) →
  heap s !! ch = Some med → _locked med = false → _listener med = None →
  drive (2 + fuel) t s = set_task t (InDeliver ch m D_wait) s.
Proof.
  intros Ht Hm Hl Hn.
  assert (Hlt : t < length (tasks s)) by (by eapply lookup_lt_Some).
  assert (Hlc : ch < length (heap s)) by (by eapply lookup_lt_Some).
  destruct med as [model l lk]; simpl in Hl, Hn; subst.
  change (2 + fuel) with (S (S fuel)).
  do 2 run_one. rewrite drive_stop.
  - unfold set_task, set_mediator; simpl. destruct s as [h fs rs ts]; simpl in *.
    f_equal; rewrite ?list_insert_insert_eq; [|done].
    by apply list_insert_id.
  - eapply (exec_parked _ _ ch m). simpl. by lookups.
Qed.

(** ** Futures are resolved once *)

Lemma step_fulfil p t s s' t' c f m :
  step p t s = Some (s', Fulfil t' c f m) →
  p = InDeliver c m D_fulfil ∧ t' = t ∧
  futures s !! f = Some Pending ∧
  futures s' = <[f := Finished m]> (futures s).
Proof. intros H. destruct p; step_cases H; done. Qed.

Lemma exec_done_future s s' a e f st :
  futures s !! f = Some st → done st = true → exec s a = Some (s', e) →
  futures s' !! f = Some st ∧ ∀ t c m, e ≠ Fulfil t c f m.
Proof.
  intros Hf Hd Hex. destruct a as [model|fac|fac r model|c|t|f']; simpl in Hex.
  - by simplify_eq.
  - by simplify_eq.
  - destruct (registries s !! r) as [obj|]; simpl in Hex; [|done].
    case_decide; [|done]. destruct fac; by simplify_eq/=.
  - destruct (callable s c); by simplify_eq/=.
  - destruct (tasks s !! t) as [p|] eqn:Ht; simpl in Hex; [|done]. split.
    + destruct (step_futures _ _ _ _ _ Hex)
        as [->|[->|(ch & med & f' & m & _ & _ & _ & _ & Hp & ->)]];
        [done|by apply lookup_app_l_Some|].
      rewrite list_lookup_insert_ne; [done|]. intros ->.
      rewrite Hf in Hp. by simplify_eq.
    + intros t' c m ->. apply step_fulfil in Hex as (_ & _ & Hp & _).
      rewrite Hf in Hp. by simplify_eq.
  - destruct (futures s !! f') as [[]|] eqn:Hf'; simplify_eq. split; [|done].
    simpl. rewrite list_lookup_insert_ne; [done|]. intros ->.
    rewrite Hf in Hf'. by simplify_eq.
Qed.

Lemma run_done_future s s' acts evs f st :
  futures s !! f = Some st → done st = true → run s acts = Some (s', evs) →
  ∀ t c m, Fulfil t c f m ∉ evs.
Proof.
  revert s evs. induction acts as [|a acts IH]; intros s evs Hf Hd Hrun;
    simpl in Hrun; [simplify_eq; intros t c m H; by inversion H|].
  destruct (exec s a) as [[s1 e]|] eqn:Hex; simpl in Hrun; [|done].
  destruct (run s1 acts) as [[s2 evs2]|] eqn:Hrun2; simplify_eq/=.
  destruct (exec_done_future _ _ _ _ _ _ Hf Hd Hex) as [Hf1 Hne].
  intros t c m Hin. apply elem_of_cons in Hin as [Heq|Hin].
  - by eapply Hne.
  - by eapply IH.
Qed.

Lemma exec_fulfil s s' a t c f m :
  exec s a = Some (s', Fulfil t c f m) →
  futures s' !! f = Some (Finished m).
Proof.
  intros Hex. destruct a as [model|fac|fac r model|c'|t'|f']; simpl in Hex;
    try by simplify_eq.
  - destruct (registries s !! r) as [obj|]; simpl in Hex; [|done].
    case_decide; [|done]. destruct fac; by simplify_eq/=.
  - destruct (callable s c'); by simplify_eq/=.
  - destruct (tasks s !! t') as [p|] eqn:Ht; simpl in Hex; [|done].
    apply step_fulfil in Hex as (_ & _ & Hp & ->).
    apply list_lookup_insert_eq. by eapply lookup_lt_Some.
  - destruct (futures s !! f') as [[]|]; by simplify_eq.
Qed.

Lemma run_fulfil_once s s' acts evs1 evs2 t1 c1 f m1 :
  run s acts = Some (s', evs1 ++ Fulfil t1 c1 f m1 :: evs2) →
  ∀ t2 c2 m2, Fulfil t2 c2 f m2 ∉ evs2.
Proof.
  revert s evs1. induction acts as [|a acts IH]; intros s evs1 Hrun;
    simpl in Hrun; [simplify_eq; by destruct evs1|].
  destruct (exec s a) as [[s1 e]|] eqn:Hex; simpl in Hrun; [|done].
  destruct (run s1 acts) as [[s2 evs]|] eqn:Hrun2; simplify_eq/=.
  destruct evs1 as [|e1 evs1]; simplify_eq/=.
  - eapply run_done_future; [by eapply exec_fulfil|done|done].
  - by eapply IH.
Qed.

Lemma slot_event_arming ch e :
  slot_event ch e = Some Arming → ∃ t f, e = Arm t ch f.
Proof.
  destruct e as [|t c f|t c f|t c f m|t c]; simpl; try done;
    case_decide; try done; subst; eauto.
Qed.

Lemma step_waits p t' t s s' e ch m :
  Inv s → sender_waits s t ch m → tasks s !! t' = Some p →
  step p t' s = Some (s', e) → (∀ t'' f, e ≠ Arm t'' ch f) →
  sender_waits s' t ch m.
Proof.
  intros HI (Harmed & q & med & Ht & Hmed & Hi) Ht' Hstep Hno.
  assert (Hlt : t < length (tasks s)) by (by eapply lookup_lt_Some).
  assert (Hlt' : t' < length (tasks s)) by (by eapply lookup_lt_Some).
  destruct (step_summary _ _ _ _ _ HI Ht' Hstep) as (p' & W & HW & Hts & Hsum).
  specialize (Hsum ch).
  assert (is_Some (heap s' !! ch)) as [med' Hmed'].
  { apply lookup_lt_is_Some. rewrite (step_heap_length _ _ _ _ _ Hstep).
    by eapply lookup_lt_Some. }
  destruct (step_mediator _ _ _ _ _ _ _ Hstep Hmed')
    as (med0 & Hmed0 & Hmodel & _).
  rewrite Hmed in Hmed0. injection Hmed0 as <-. split.
  - destruct (slot_event ch e) as [[| |]|] eqn:Hev.
    + by destruct Hsum as (_ & _ & _ & _ & ?).
    + apply slot_event_arming in Hev as (t'' & f & ->). by destruct (Hno t'' f).
    + destruct Hsum as (_ & _ & _ & ? & _). congruence.
    + destruct Hsum as [-> _]. done.
  - destruct (decide (t' = t)) as [->|Hne].
    + rewrite Ht in Ht'. injection Ht' as <-.
      pose proof (in_task_ok s t _ ch med HI Ht eq_refl Hmed) as Hok.
      unfold armed in Harmed. rewrite Hmed in Harmed.
      destruct q; simpl in Hok; rewrite ?Harmed, ?andb_false_r in Hok;
        try done; step_cases Hstep;
        simpl in *; rewrite list_lookup_insert_eq by lengths;
        eexists _, _; (split; [reflexivity|]);
        (split; [first [eassumption
                       |apply list_lookup_insert_eq; by eapply lookup_lt_Some]
                |first [by rewrite Hmodel
                       |match goal with
                        | H : isinstance _ _ = true |- _ => exact H
                        end]]).
    + exists (match W (InDeliver ch m q) with
              | InDeliver _ _ q' => q'
              | _ => q
              end), med'.
      split_and!; [|done|by rewrite Hmodel].
      rewrite Hts, list_lookup_insert_ne by done.
      rewrite list_lookup_fmap, Ht. simpl.
      destruct (HW (InDeliver ch m q)) as [->|(c & m' & ? & ->)];
        by simplify_eq.
Qed.

Lemma exec_waits a t s s' e ch m :
  Inv s → sender_waits s t ch m → exec s a = Some (s', e) →
  (∀ t'' f, e ≠ Arm t'' ch f) → sender_waits s' t ch m.
Proof.
  intros HI Hw Hex Hno. destruct a as [model|fac|fac r model|c|t'|f];
    simpl in Hex.
  - simplify_eq. destruct Hw as (Harmed & q & med & Ht & Hmed & Hi). split.
    + by erewrite armed_grow.
    + exists q, med. split_and!; [done| |done]. by apply lookup_app_l_Some.
  - simplify_eq. done.
  - destruct (registries s !! r) as [obj|]; simpl in Hex; [|done].
    case_decide; [|done].
    destruct Hw as (Harmed & q & med & Ht & Hmed & Hi).
    destruct fac; simplify_eq/=; (split; [by erewrite armed_grow|]);
      exists q, med; (split_and!; [done| |done]); by apply lookup_app_l_Some.
  - destruct (callable s c); simplify_eq/=.
    destruct Hw as (Harmed & q & med & Ht & Hmed & Hi). split; [done|].
    exists q, med. split_and!; [|done..]. by apply lookup_app_l_Some.
  - destruct (tasks s !! t') as [p|] eqn:Ht'; simpl in Hex; [|done].
    by eapply step_waits.
  - destruct (futures s !! f) as [[]|]; simplify_eq. done.
Qed.

Lemma run_waits acts t s s' evs ch m :
  Inv s → sender_waits s t ch m → run s acts = Some (s', evs) →
  (∀ t'' f, Arm t'' ch f ∉ evs) → sender_waits s' t ch m.
Proof.
  revert s evs. induction acts as [|a acts IH]; intros s evs HI Hw Hrun Hno;
    simpl in Hrun; [by simplify_eq|].
  destruct (exec s a) as [[s1 e]|] eqn:Hex; simpl in Hrun; [|done].
  destruct (run s1 acts) as [[s2 evs2]|] eqn:Hrun2; simplify_eq/=.
  eapply (IH s1 evs2); [by eapply exec_inv| |done|].
  - eapply exec_waits; [done..|]. intros t'' f ->. apply (Hno t'' f). by left.
  - intros t'' f Hin. apply (Hno t'' f). by right.
Qed.










(** ** The tests of the repository, replayed *)

(** [test_successful_delivery]: listener first, then the sender; the
    listener's future holds the message. *)
Example test_successful_delivery :
  ∃ s evs,
    run init [NewMediator TestModel1;
              Spawn (Call_register_listener 0);
              Run 0; Run 0; Run 0; Run 0; Run 0;
              Spawn (Call_deliver_message 0 (Message TestModel1 "Hallo, Welt!"));
              Run 1; Run 1; Run 1; Run 1; Run 1] = Some (s, evs) ∧
    tasks s = [Done (Returned (VFuture 0)); Done (Returned VNone)] ∧
    futures s = [Finished (Message TestModel1 "Hallo, Welt!")] ∧
    heap s = [new_mediator TestModel1].
Proof. eexists _, _. split; [reflexivity|]. by repeat split. Qed.

(** [test_delivery_waits_for_listener]: the sender comes first and parks;
    the listener registers and wakes it; the sender then delivers. *)
Example test_delivery_waits_for_listener :
  ∃ s1 evs1 s2 evs2,
    run init [NewMediator TestModel1;
              Spawn (Call_deliver_message 0 (Message TestModel1 "spaet"));
              Run 0; Run 0; Run 0] = Some (s1, evs1) ∧
    tasks s1 = [InDeliver 0 (Message TestModel1 "spaet") D_wait] ∧
    exec s1 (Run 0) = None ∧
    run s1 [Spawn (Call_register_listener 0);
            Run 1; Run 1; Run 1; Run 1; Run 1;
            Run 0; Run 0; Run 0; Run 0] = Some (s2, evs2) ∧
    tasks s2 = [Done (Returned VNone); Done (Returned (VFuture 0))] ∧
    futures s2 = [Finished (Message TestModel1 "spaet")].
Proof.
  eexists _, _, _, _. split; [reflexivity|].
  split; [reflexivity|]. split; [reflexivity|].
  split; [reflexivity|]. by split.
Qed.

(** [test_multiple_models]: two models, two listeners, two messages; each
    listener returns the message of its own model. *)
Example test_multiple_models :
  ∃ s evs,
    run listening_both
      [Spawn (Call_sendToAgent 0 (Message TestModel1 "Message for Model1"));
       Run 2; Run 2; Run 2; Run 2; Run 2; Run 2;
       Spawn (Call_sendToAgent 0 (Message TestModel2 "Message for Model2"));
       Run 3; Run 3; Run 3; Run 3; Run 3; Run 3;
       Run 0; Run 1] = Some (s, evs) ∧
    tasks s
    = [Done (Returned (VMessage (Message TestModel1 "Message for Model1")));
       Done (Returned (VMessage (Message TestModel2 "Message for Model2")));
       Done (Returned VNone); Done (Returned VNone)].
Proof. eexists _, _. split; reflexivity. Qed.

(** * Part IV: the properties of the specification *)

(** C1 (round-trip handoff).  On an idle mediator, for a message whose
    class is the bound model: [register_listener] returns a fresh pending
    future [L]; a following [deliver_message] returns normally, [L] then
    holds exactly that message, and the mediator is idle again (no listener,
    lock released, same model). *)
Theorem round_trip s ch med M :
  heap s !! ch = Some med → _listener med = None → _locked med = false →
  msg_class M = _model med →
  ∃ s1 s2,
    await (Call_register_listener ch) s
      = Some (s1, Some (Done (Returned (VFuture (length (futures s)))))) ∧
    futures s1 !! length (futures s) = Some Pending ∧
    await (Call_deliver_message ch M) s1
      = Some (s2, Some (Done (Returned VNone))) ∧
    futures s2 !! length (futures s) = Some (Finished M) ∧
    heap s2 !! ch = Some (new_mediator (_model med)).
Proof.
  intros Hm Hn Hl Hty.
  assert (Hlc : ch < length (heap s)) by (by eapply lookup_lt_Some).
  eexists _, _. split; [by apply await_register_idle|].
  split; [apply lookup_last|].
  split.
  - eapply await_deliver_armed; simpl.
    + by apply list_lookup_insert_eq.
    + done.
    + done.
    + simpl. rewrite <- Hty. apply isinstance_own.
  - simpl. unfold fulfilled. rewrite lookup_last.
    split.
    + apply list_lookup_insert_eq. rewrite length_app. simpl. lia.
    + apply list_lookup_insert_eq. by rewrite length_insert.
Qed.

Lemma round_trip_witness :
  ∃ s1 s2,
    await (Call_register_listener 0) (mkSystem [new_mediator TestModel1] [] [] [])
      = Some (s1, Some (Done (Returned (VFuture 0)))) ∧
    futures s1 !! 0 = Some Pending ∧
    await (Call_deliver_message 0 (Message TestModel1 "Hallo, Welt!")) s1
      = Some (s2, Some (Done (Returned VNone))) ∧
    futures s2 !! 0 = Some (Finished (Message TestModel1 "Hallo, Welt!")) ∧
    heap s2 !! 0 = Some (new_mediator TestModel1).
Proof.
  apply (round_trip (mkSystem [new_mediator TestModel1] [] [] []) 0
           (new_mediator TestModel1) (Message TestModel1 "Hallo, Welt!"));
    reflexivity.
Defined.



(** C3, as stated, fails: [isinstance] also accepts an instance of a
    subclass of the bound model, whose class differs from the bound model.
    With a listener registered on a [Mediator(TestModel1)], delivering an
    instance of [class SubModel1(TestModel1)] raises nothing and fulfils the
    listener's future. *)
Lemma type_mismatch_counterexample :
  let m := Message SubModel1 "sub" in
  ∃ s evs,
    run init [NewMediator TestModel1;
              Spawn (Call_register_listener 0);
              Run 0; Run 0; Run 0; Run 0; Run 0;
              Spawn (Call_deliver_message 0 m)] = Some (s, evs) ∧
    heap s !! 0 = Some (mkMediator TestModel1 (Some 0) false) ∧
    tasks s !! 1 = Some (InDeliver 0 m D_typecheck) ∧
    msg_class m ≠ TestModel1 ∧
    exec s (Run 1) ≠ Some (set_task 1 (Done (Raised TypeMismatch)) s, Tau) ∧
    tasks (drive 5 1 s) !! 1 = Some (Done (Returned VNone)) ∧
    futures (drive 5 1 s) !! 0 = Some (Finished m).
Proof.
  eexists _, _. split; [reflexivity|].
  repeat split; try reflexivity; vm_compute; discriminate.
Qed.

(** C3 (type-mismatch atomicity), amended: a message that is not an instance
    of the bound model (its class is neither the model nor a subclass of it)
    makes [deliver_message] raise at its first step, whatever the state of
    the mediator, armed or idle, lock taken or free; nothing but the
    caller's own program point changes. *)
Theorem type_mismatch_atomic s t ch med m :
  tasks s !! t = Some (InDeliver ch m D_typecheck) →
  heap s !! ch = Some med →
  isinstance m (_model med) = false →
  exec s (Run t) = Some (set_task t (Done (Raised TypeMismatch)) s, Tau) ∧
  heap (set_task t (Done (Raised TypeMismatch)) s) = heap s ∧
  futures (set_task t (Done (Raised TypeMismatch)) s) = futures s.
Proof.
  intros Ht Hm Hi. split; [|done].
  simpl. rewrite Ht. simpl. unfold deliver_message. rewrite Hm. simpl.
  by rewrite Hi.
Qed.

Lemma type_mismatch_atomic_witness :
  let s := mkSystem [mkMediator TestModel1 (Some 0) true] [Pending] []
             [InDeliver 0 (Message TestModel2 "Falsches Modell") D_typecheck] in
  exec s (Run 0) = Some (set_task 0 (Done (Raised TypeMismatch)) s, Tau) ∧
  heap (set_task 0 (Done (Raised TypeMismatch)) s) = heap s ∧
  futures (set_task 0 (Done (Raised TypeMismatch)) s) = futures s.
Proof.
  apply (type_mismatch_atomic _ 0 0 (mkMediator TestModel1 (Some 0) true)
           (Message TestModel2 "Falsches Modell")); reflexivity.
Defined.

(** C4 (listener conflict).  While the slot is occupied, a further
    [register_listener] raises at once; mediator, futures and the other
    tasks are exactly as before, and the failed call is finished, not
    queued. *)
Theorem listener_conflict s ch med f :
  heap s !! ch = Some med → _listener med = Some f → _locked med = false →
  await (Call_register_listener ch) s =
  Some (mkSystem (heap s) (futures s) (registries s)
          (tasks s ++ [Done (Raised ListenerConflict)]),
        Some (Done (Raised ListenerConflict))).
Proof.
  intros Hm Hn Hl. unfold await. cbn [exec callable].
  rewrite bool_decide_eq_true_2 by (by eapply lookup_lt_Some).
  cbn [mbind option_bind].
  rewrite (register_armed _ _ KReturn ch med f 6);
    [|apply lookup_last|done..].
  unfold set_task. cbn [tasks heap futures registries entry].
  by rewrite insert_last, lookup_last.
Qed.

Lemma listener_conflict_witness :
  let s := mkSystem [mkMediator TestModel1 (Some 0) false] [Pending] []
             [Done (Returned (VFuture 0))] in
  await (Call_register_listener 0) s =
  Some (mkSystem (heap s) (futures s) (registries s)
          (tasks s ++ [Done (Raised ListenerConflict)]),
        Some (Done (Raised ListenerConflict))).
Proof.
  apply (listener_conflict _ 0 (mkMediator TestModel1 (Some 0) false) 0);
    reflexivity.
Defined.

(** C5 (order independence, single winner).  On an idle, free mediator:
    - a delivery of a message of the right type suspends: the call parks
      on the condition, it neither returns nor raises;
    - whatever the schedule, a sender stays inside [deliver_message] as
      long as no [register_listener] has written the slot;
    - [register_listener] wakes every parked sender; whichever of them runs
      first resolves the new future with its own message and leaves the
      mediator idle; any other one, run after it, finds the slot empty and
      parks again, changing nothing else;
    - along any schedule no future is resolved a second time. *)
Theorem order_independence s ch med :
  reachable s →
  heap s !! ch = Some med → _listener med = None → _locked med = false →
  (∀ m, isinstance m (_model med) = true →
     await (Call_deliver_message ch m) s
     = Some (mkSystem (heap s) (futures s) (registries s)
               (tasks s ++ [InDeliver ch m D_wait]),
             Some (InDeliver ch m D_wait))) ∧
  (∀ t m q acts s' evs,
     tasks s !! t = Some (InDeliver ch m q) →
     isinstance m (_model med) = true →
     run s acts = Some (s', evs) →
     (∀ t' f, Arm t' ch f ∉ evs) →
     ∃ q', tasks s' !! t = Some (InDeliver ch m q')) ∧
  (∃ s1,
     await (Call_register_listener ch) s
     = Some (s1, Some (Done (Returned (VFuture (length (futures s)))))) ∧
     ∀ t1 m1,
       tasks s !! t1 = Some (InDeliver ch m1 D_wait) →
       tasks s1 !! t1 = Some (InDeliver ch m1 D_woken) ∧
       tasks (drive 8 t1 s1) !! t1 = Some (Done (Returned VNone)) ∧
       futures (drive 8 t1 s1) !! length (futures s) = Some (Finished m1) ∧
       heap (drive 8 t1 s1) !! ch = Some (new_mediator (_model med)) ∧
       ∀ t2 m2,
         t2 ≠ t1 → tasks s !! t2 = Some (InDeliver ch m2 D_wait) →
         drive 8 t2 (drive 8 t1 s1)
         = set_task t2 (InDeliver ch m2 D_wait) (drive 8 t1 s1)) ∧
  (∀ acts s' evs1 evs2 t1 c1 f m1,
     run s acts = Some (s', evs1 ++ Fulfil t1 c1 f m1 :: evs2) →
     ∀ t2 c2 m2, Fulfil t2 c2 f m2 ∉ evs2).
Proof.
  intros Hreach Hmed Hn Hl.
  pose proof (reachable_inv s Hreach) as HI.
  assert (Hlc : ch < length (heap s)) by (by eapply lookup_lt_Some).
  split_and!.
  - intros m Hi. by eapply await_deliver_idle.
  - intros t m q acts s' evs Ht Hi Hrun Hno.
    assert (Hw : sender_waits s t ch m).
    { split.
      - unfold armed, occupied. rewrite Hmed, Hn.
        by apply bool_decide_eq_false_2; intros [].
      - eauto. }
    destruct (run_waits _ _ _ _ _ _ _ HI Hw Hrun Hno)
      as (_ & q' & med' & Ht' & _). eauto.
  - eexists. split; [by apply await_register_idle|].
    intros t1 m1 Ht1.
    assert (Hlt1 : t1 < length (tasks s)) by (by eapply lookup_lt_Some).
    assert (Hwoken : ∀ t m, tasks s !! t = Some (InDeliver ch m D_wait) →
              ((wake ch <$> tasks s)
                 ++ [Done (Returned (VFuture (length (futures s))))]) !! t
              = Some (InDeliver ch m D_woken)).
    { intros t m Ht. apply lookup_app_l_Some.
      rewrite list_lookup_fmap, Ht. simpl. by rewrite decide_True. }
    split; [by apply Hwoken|].
    erewrite (woken_armed _ t1 ch _ m1 (length (futures s)) 4);
      [|by apply Hwoken|by apply list_lookup_insert_eq|done..].
    cbn [tasks heap futures registries _model].
    unfold fulfilled. rewrite lookup_last.
    split_and!.
    + apply list_lookup_insert_eq. rewrite length_app, length_fmap. lia.
    + apply list_lookup_insert_eq. rewrite length_app. simpl. lia.
    + apply list_lookup_insert_eq. by rewrite length_insert.
    + intros t2 m2 Hne Ht2.
      eapply (woken_idle _ t2 ch _ m2 6); cbn [tasks heap].
      * rewrite list_lookup_insert_ne by done. by apply Hwoken.
      * apply list_lookup_insert_eq. by rewrite length_insert.
      * done.
      * done.
  - intros acts s' evs1 evs2 t1 c1 f m1 Hrun. by eapply run_fulfil_once.
Qed.

Lemma order_independence_witness :
  (∀ m, isinstance m TestModel1 = true →
     await (Call_deliver_message 0 m) two_parked
     = Some (mkSystem (heap two_parked) (futures two_parked)
               (registries two_parked)
               (tasks two_parked ++ [InDeliver 0 m D_wait]),
             Some (InDeliver 0 m D_wait))) ∧
  (∀ t m q acts s' evs,
     tasks two_parked !! t = Some (InDeliver 0 m q) →
     isinstance m TestModel1 = true →
     run two_parked acts = Some (s', evs) →
     (∀ t' f, Arm t' 0 f ∉ evs) →
     ∃ q', tasks s' !! t = Some (InDeliver 0 m q')) ∧
  (∃ s1,
     await (Call_register_listener 0) two_parked
     = Some (s1, Some (Done (Returned (VFuture 0)))) ∧
     ∀ t1 m1,
       tasks two_parked !! t1 = Some (InDeliver 0 m1 D_wait) →
       tasks s1 !! t1 = Some (InDeliver 0 m1 D_woken) ∧
       tasks (drive 8 t1 s1) !! t1 = Some (Done (Returned VNone)) ∧
       futures (drive 8 t1 s1) !! 0 = Some (Finished m1) ∧
       heap (drive 8 t1 s1) !! 0 = Some (new_mediator TestModel1) ∧
       ∀ t2 m2,
         t2 ≠ t1 → tasks two_parked !! t2 = Some (InDeliver 0 m2 D_wait) →
         drive 8 t2 (drive 8 t1 s1)
         = set_task t2 (InDeliver 0 m2 D_wait) (drive 8 t1 s1)) ∧
  (∀ acts s' evs1 evs2 t1 c1 f m1,
     run two_parked acts = Some (s', evs1 ++ Fulfil t1 c1 f m1 :: evs2) →
     ∀ t2 c2 m2, Fulfil t2 c2 f m2 ∉ evs2).
Proof.
  refine (order_independence two_parked 0 (new_mediator TestModel1) _ _ _ _).
  - exists [NewMediator TestModel1;
            Spawn (Call_deliver_message 0 (Message TestModel1 "a"));
            Run 0; Run 0; Run 0;
            Spawn (Call_deliver_message 0 (Message TestModel1 "b"));
            Run 1; Run 1; Run 1].
    eexists. reflexivity.
  - reflexivity.
  - reflexivity.
  - reflexivity.
Defined.

(** C6 (unknown type).  On a facade whose dictionary has no entry for the
    name of the model, respectively of the message's class, both the
    receiving and the sending method raise [UnknownType] at their first
    step; the call is finished, it never parks or waits, and nothing else
    changes. *)
Theorem unknown_type s r obj :
  registries s !! r = Some obj →
  (∀ model, mediators obj !! cls_name model = None →
     match kind obj with
     | Receives =>
         await (Call_agentReceives r model) s
         = Some (finished s (Raised UnknownType),
                 Some (Done (Raised UnknownType)))
     | Sends =>
         await (Call_receiveFromAgent r model) s
         = Some (finished s (Raised UnknownType),
                 Some (Done (Raised UnknownType)))
     end) ∧
  (∀ msg, mediators obj !! cls_name (msg_class msg) = None →
     match kind obj with
     | Receives =>
         await (Call_sendToAgent r msg) s
         = Some (finished s (Raised UnknownType),
                 Some (Done (Raised UnknownType)))
     | Sends =>
         await (Call_agentSends r msg) s
         = Some (finished s (Raised UnknownType),
                 Some (Done (Raised UnknownType)))
     end).
Proof.
  intros Hr. split.
  - intros model Hnone. destruct (kind obj) eqn:Hk;
      (eapply await_facade; [done|done|done|done|]);
      simpl; rewrite Hr; simpl;
      unfold AgentReceives.agentReceives, AgentSends.receiveFromAgent;
      by rewrite Hnone.
  - intros msg Hnone. destruct (kind obj) eqn:Hk;
      (eapply await_facade; [done|done|done|done|]);
      simpl; rewrite Hr; simpl;
      unfold AgentReceives.sendToAgent, AgentSends.agentSends;
      by rewrite Hnone.
Qed.

Lemma unknown_type_witness :
  let s := mkSystem [] [] [mkFacade Receives ∅] [] in
  (∀ model, (∅ : gmap string nat) !! cls_name model = None →
     await (Call_agentReceives 0 model) s
     = Some (finished s (Raised UnknownType),
             Some (Done (Raised UnknownType)))) ∧
  (∀ msg, (∅ : gmap string nat) !! cls_name (msg_class msg) = None →
     await (Call_sendToAgent 0 msg) s
     = Some (finished s (Raised UnknownType),
             Some (Done (Raised UnknownType)))).
Proof.
  apply (unknown_type (mkSystem [] [] [mkFacade Receives ∅] []) 0
           (mkFacade Receives ∅)).
  reflexivity.
Defined.

(** C7, as stated, fails: the dictionary is keyed by the class name, the
    check is made on the class.  A facade holding [TestModel1] and sent an
    instance of another class that is also called [TestModel1] finds the
    mediator and raises [TypeMismatch]. *)
Lemma dispatch_type_mismatch_counterexample :
  ∃ s evs,
    run init [NewFacade Receives; Add Receives 0 TestModel1;
              Spawn (Call_sendToAgent 0 (Message OtherTestModel1 "hi"));
              Run 0; Run 0] = Some (s, evs) ∧
    tasks s !! 0 = Some (Done (Raised TypeMismatch)).
Proof. eexists _, _. split; reflexivity. Qed.

(** C7 (dispatch cannot raise [TypeMismatch]), amended: it cannot when,
    among the models this facade has mediators for, none other than the
    message's own class bears that class's name.  The sending method then
    ends with [UnknownType], or gets past the type check of
    [deliver_message]; it never ends with [TypeMismatch]. *)
Theorem dispatch_type_safe s r obj msg :
  reachable s →
  registries s !! r = Some obj →
  (∀ k ch med, mediators obj !! k = Some ch → heap s !! ch = Some med →
     cls_name (_model med) = cls_name (msg_class msg) →
     _model med = msg_class msg) →
  ∃ s' p,
    await (match kind obj with
           | Receives => Call_sendToAgent r msg
           | Sends => Call_agentSends r msg
           end) s = Some (s', Some p) ∧
    past_typecheck p.
Proof.
  intros Hreach Hr Huniq.
  pose proof (reachable_inv s Hreach) as HI.
  set (c := match kind obj with
            | Receives => Call_sendToAgent r msg
            | Sends => Call_agentSends r msg
            end).
  set (s1 := mkSystem (heap s) (futures s) (registries s)
               (tasks s ++ [entry c])).
  set (t := length (tasks s)).
  assert (Hex : exec s (Spawn c) = Some (s1, Tau)).
  { cbn [exec]. replace (callable s c) with true; [done|].
    subst c. destruct (kind obj) eqn:Hk; simpl; unfold is_facade;
      by rewrite Hr, bool_decide_eq_true_2. }
  assert (Ht : tasks s1 !! t = Some (InSend (kind obj) r msg)).
  { subst s1 t c. cbn [tasks]. rewrite lookup_last. by destruct (kind obj). }
  assert (Hlt : t < length (tasks s1)) by (by eapply lookup_lt_Some).
  unfold await. rewrite Hex. cbn [mbind option_bind]. fold t.
  change 8 with (S 7).
  destruct (mediators obj !! cls_name (msg_class msg)) as [ch|] eqn:Hlook.
  - destruct (inv_registry s HI _ _ _ _ Hr Hlook) as (med & Hmed & Hname).
    assert (Hi : isinstance msg (_model med) = true).
    { rewrite (Huniq _ _ _ Hlook Hmed Hname). apply isinstance_own. }
    erewrite drive_step.
    2:{ cbn [exec]. rewrite Ht. cbn [mbind option_bind step].
        subst s1. cbn [registries]. rewrite Hr. cbn [mbind option_bind].
        reflexivity. }
    change 7 with (S 6). erewrite drive_step.
    2:{ cbn [exec]. rewrite (tasks_set_task _ _ _ _ Ht).
        cbn [mbind option_bind].
        destruct (kind obj); cbn [facade_send];
          unfold AgentReceives.sendToAgent, AgentSends.agentSends;
          rewrite Hlook; cbn [step]; unfold deliver_message;
          cbn [heap set_task]; subst s1; cbn [heap]; rewrite Hmed;
          cbn [mbind option_bind]; rewrite Hi; reflexivity. }
    edestruct (drive_past_typecheck 6 t) as (p' & Hp' & Hpast);
      [| |eexists _, p'; split; [by rewrite Hp'|done]].
    + eapply tasks_set_task. by eapply tasks_set_task.
    + done.
  - erewrite drive_step.
    2:{ cbn [exec]. rewrite Ht. cbn [mbind option_bind step].
        subst s1. cbn [registries]. rewrite Hr. cbn [mbind option_bind].
        reflexivity. }
    assert (Hdone : tasks (set_task t (facade_send (kind obj) (mediators obj) msg) s1)
                      !! t = Some (Done (Raised UnknownType))).
    { rewrite (tasks_set_task _ _ _ _ Ht).
      destruct (kind obj); cbn [facade_send];
        unfold AgentReceives.sendToAgent, AgentSends.agentSends;
        by rewrite Hlook. }
    rewrite drive_stop by (by eapply exec_done).
    eexists _, _. split; [exact (f_equal (λ o, Some (_, o)) Hdone)|done].
Qed.

Lemma dispatch_type_safe_witness :
  ∃ s' p,
    await (Call_sendToAgent 0 (Message TestModel1 "Hallo, Agent!")) listening
      = Some (s', Some p) ∧
    past_typecheck p.
Proof.
  apply (dispatch_type_safe listening 0
           (mkFacade Receives {["TestModel1" := 0]})
           (Message TestModel1 "Hallo, Agent!")).
  - exists [NewFacade Receives; Add Receives 0 TestModel1;
            Spawn (Call_agentReceives 0 TestModel1);
            Run 0; Run 0; Run 0; Run 0; Run 0; Run 0].
    eexists. reflexivity.
  - reflexivity.
  - intros k [|ch] med _ Hmed _; simpl in Hmed; [|done].
    injection Hmed as <-. reflexivity.
Defined.



(** C9 (delivery to a completed handle).  A message of the right type,
    delivered to a mediator whose slot holds a future that is already done
    (cancelled, or resolved by someone else), returns normally; the future
    is left as it was, so the message is dropped, and the slot is emptied. *)
Theorem deliver_to_done_handle s ch med m f st :
  heap s !! ch = Some med → _locked med = false → _listener med = Some f →
  isinstance m (_model med) = true →
  futures s !! f = Some st → done st = true →
  await (Call_deliver_message ch m) s =
  Some (mkSystem (<[ch := new_mediator (_model med)]> (heap s))
          (futures s) (registries s) (tasks s ++ [Done (Returned VNone)]),
        Some (Done (Returned VNone))).
Proof.
  intros Hm Hl Hn Hi Hf Hd.
  rewrite (await_deliver_armed s ch med m f) by done.
  unfold fulfilled. rewrite Hf. by destruct st.
Qed.

Lemma deliver_to_done_handle_witness :
  let s := mkSystem [mkMediator TestModel1 (Some 0) false] [Cancelled] [] [] in
  await (Call_deliver_message 0 (Message TestModel1 "zu spaet")) s =
  Some (mkSystem [new_mediator TestModel1] [Cancelled] []
          [Done (Returned VNone)],
        Some (Done (Returned VNone))).
Proof.
  apply (deliver_to_done_handle
           (mkSystem [mkMediator TestModel1 (Some 0) false] [Cancelled] [] [])
           0 (mkMediator TestModel1 (Some 0) false)
           (Message TestModel1 "zu spaet") 0 Cancelled); reflexivity.
Defined.



(** * Part V: further properties of the code *)

(** ** The facade methods, run to their first suspension *)

Lemma entry_receive_call fac r model :
  entry (receive_call fac r model) = InReceive fac r model.
Proof. by destruct fac. Qed.

Lemma entry_send_call fac r msg :
  entry (send_call fac r msg) = InSend fac r msg.
Proof. by destruct fac. Qed.

Lemma facade_receive_found fac d model ch :
  d !! cls_name model = Some ch →
  facade_receive fac d model = InRegister KAwait ch R_enter.
Proof.
  intros H. destruct fac; simpl;
    unfold AgentReceives.agentReceives, AgentSends.receiveFromAgent;
    by rewrite H.
Qed.

Lemma facade_send_found fac d msg ch :
  d !! cls_name (msg_class msg) = Some ch →
  facade_send fac d msg = InDeliver ch msg D_typecheck.
Proof.
  intros H. destruct fac; simpl;
    unfold AgentReceives.sendToAgent, AgentSends.agentSends;
    by rewrite H.
Qed.

(** Spawning a facade call and making its first step, the lookup. *)
Lemma spawn_facade s c r obj p p' :
  registries s !! r = Some obj →
  callable s c = true → entry c = p →
  (∀ s0, registries s0 = registries s →
     step p (length (tasks s)) s0
     = Some (set_task (length (tasks s)) p' s0, Tau)) →
  await c s =
  (let t := length (tasks s) in
   let s2 := drive 7 t (mkSystem (heap s) (futures s) (registries s)
                          (tasks s ++ [p'])) in
   Some (s2, tasks s2 !! t)).
Proof.
  intros Hr Hc Hp Hstep. unfold await. cbn [exec]. rewrite Hc, Hp.
  cbn [mbind option_bind]. change 8 with (S 7). erewrite drive_step.
  2:{ cbn [exec tasks]. rewrite lookup_last. cbn [mbind option_bind].
      by apply Hstep. }
  unfold set_task. cbn [tasks heap futures registries].
  by rewrite insert_last.
Qed.

Lemma callable_receive s r obj model :
  registries s !! r = Some obj →
  callable s (receive_call (kind obj) r model) = true.
Proof.
  intros Hr. destruct (kind obj) eqn:Hk; simpl; unfold is_facade;
    by rewrite Hr, bool_decide_eq_true_2.
Qed.

Lemma callable_send s r obj msg :
  registries s !! r = Some obj →
  callable s (send_call (kind obj) r msg) = true.
Proof.
  intros Hr. destruct (kind obj) eqn:Hk; simpl; unfold is_facade;
    by rewrite Hr, bool_decide_eq_true_2.
Qed.

Lemma await_receive s r obj model ch :
  registries s !! r = Some obj →
  mediators obj !! cls_name model = Some ch →
  await (receive_call (kind obj) r model) s =
  (let t := length (tasks s) in
   let s2 := drive 7 t (mkSystem (heap s) (futures s) (registries s)
                          (tasks s ++ [InRegister KAwait ch R_enter])) in
   Some (s2, tasks s2 !! t)).
Proof.
  intros Hr Hk.
  eapply spawn_facade; [done|by apply callable_receive
                       |apply entry_receive_call|].
  intros s0 Hs0. simpl. rewrite Hs0, Hr. simpl.
  by rewrite (facade_receive_found _ _ _ _ Hk).
Qed.

Lemma await_send s r obj msg ch :
  registries s !! r = Some obj →
  mediators obj !! cls_name (msg_class msg) = Some ch →
  await (send_call (kind obj) r msg) s =
  (let t := length (tasks s) in
   let s2 := drive 7 t (mkSystem (heap s) (futures s) (registries s)
                          (tasks s ++ [InDeliver ch msg D_typecheck])) in
   Some (s2, tasks s2 !! t)).
Proof.
  intros Hr Hk.
  eapply spawn_facade; [done|by apply callable_send
                       |apply entry_send_call|].
  intros s0 Hs0. simpl. rewrite Hs0, Hr. simpl.
  by rewrite (facade_send_found _ _ _ _ Hk).
Qed.

Lemma exec_awaiting_pending s t f :
  tasks s !! t = Some (Awaiting f) → futures s !! f = Some Pending →
  exec s (Run t) = None.
Proof.
  intros Ht Hf. simpl. rewrite Ht. simpl. unfold await_future. by rewrite Hf.
Qed.

(** The receiving method on an idle, free mediator: it registers and
    suspends on the fresh future. *)
Lemma await_receive_idle s r obj model ch med :
  registries s !! r = Some obj →
  mediators obj !! cls_name model = Some ch →
  heap s !! ch = Some med → _locked med = false → _listener med = None →
  await (receive_call (kind obj) r model) s =
  Some (mkSystem
          (<[ch := mkMediator (_model med) (Some (length (futures s))) false]>
             (heap s))
          (futures s ++ [Pending]) (registries s)
          ((wake ch <$> tasks s) ++ [Awaiting (length (futures s))]),
        Some (Awaiting (length (futures s)))).
Proof.
  intros Hr Hk Hm Hl Hn. rewrite (await_receive s r obj model ch) by done.
  cbv zeta.
  rewrite (register_alone _ _ KAwait ch med 2);
    [|apply lookup_last|done..].
  cbn [tasks heap futures registries registered].
  rewrite fmap_app. cbn [fmap list_fmap wake].
  replace (length (tasks s)) with (length (wake ch <$> tasks s))
    by apply length_fmap.
  rewrite insert_last, drive_stop.
  - cbn [tasks]. by rewrite lookup_last.
  - eapply exec_awaiting_pending; cbn [tasks futures];
      apply lookup_last.
Qed.


(** ** Through the facades *)



(** X2 (the facade lets [ListenerConflict] through).  When the mediator
    found for [model] already holds a listener, the receiving method of
    either facade raises [ListenerConflict]; the call is finished and
    mediator, futures and the other tasks are as before. *)
Theorem facade_listener_conflict s r obj model ch med f :
  registries s !! r = Some obj →
  mediators obj !! cls_name model = Some ch →
  heap s !! ch = Some med → _locked med = false → _listener med = Some f →
  await (receive_call (kind obj) r model) s
  = Some (finished s (Raised ListenerConflict),
          Some (Done (Raised ListenerConflict))).
Proof.
  intros Hr Hk Hm Hl Hn. rewrite (await_receive s r obj model ch) by done.
  cbv zeta.
  rewrite (register_armed _ _ KAwait ch med f 5);
    [|apply lookup_last|done..].
  unfold set_task, finished. cbn [tasks heap futures registries].
  by rewrite insert_last, lookup_last.
Qed.

Lemma facade_listener_conflict_witness :
  await (Call_agentReceives 0 TestModel1) listening
  = Some (finished listening (Raised ListenerConflict),
          Some (Done (Raised ListenerConflict))).
Proof.
  refine (facade_listener_conflict listening 0
            (mkFacade Receives {["TestModel1" := 0]}) TestModel1 0
            (mkMediator TestModel1 (Some 0) false) 0 _ _ _ _ _);
    reflexivity.
Defined.

(** X3 (add, then look up).  [add(model)] always succeeds.  Afterwards
    the receiving method called with [model] registers on the new mediator,
    which is idle and bound to [model], and suspends on a fresh future
    instead of raising [UnknownType]; the sending method, given an instance
    of a class of that name, is routed to the same mediator.  Entries
    under other names, other facades and the mediators that existed are as
    before. *)
Theorem add_then_lookup s r obj model :
  registries s !! r = Some obj →
  ∃ s' obj',
    exec s (Add (kind obj) r model) = Some (s', Tau) ∧
    registries s' !! r = Some obj' ∧ kind obj' = kind obj ∧
    heap s' !! length (heap s) = Some (new_mediator model) ∧
    (∃ s1, await (receive_call (kind obj) r model) s'
           = Some (s1, Some (Awaiting (length (futures s)))) ∧
           heap s1 !! length (heap s)
           = Some (mkMediator model (Some (length (futures s))) false)) ∧
    (∀ msg, cls_name (msg_class msg) = cls_name model →
       facade_send (kind obj) (mediators obj') msg
       = InDeliver (length (heap s)) msg D_typecheck) ∧
    (∀ k, k ≠ cls_name model → mediators obj' !! k = mediators obj !! k) ∧
    (∀ r', r' ≠ r → registries s' !! r' = registries s !! r') ∧
    (∀ ch, ch < length (heap s) → heap s' !! ch = heap s !! ch).
Proof.
  intros Hr.
  assert (Hrl : r < length (registries s)) by (by eapply lookup_lt_Some).
  set (obj' := mkFacade (kind obj)
                 (<[cls_name model := length (heap s)]> (mediators obj))).
  set (s' := mkSystem (heap s ++ [new_mediator model]) (futures s)
               (<[r := obj']> (registries s)) (tasks s)).
  assert (Hr' : registries s' !! r = Some obj')
    by (by apply list_lookup_insert_eq).
  assert (Hnew : heap s' !! length (heap s) = Some (new_mediator model))
    by apply lookup_last.
  exists s', obj'. split_and!.
  - simpl. rewrite Hr. simpl. rewrite decide_True by done.
    by destruct (kind obj).
  - done.
  - done.
  - done.
  - eexists. split.
    + eapply (await_receive_idle s' r obj' model); [done| |done..].
      simpl. apply lookup_insert_eq.
    + simpl. apply list_lookup_insert_eq. rewrite length_app. simpl. lia.
  - intros msg Hname. apply facade_send_found. rewrite Hname.
    simpl. apply lookup_insert_eq.
  - intros k Hk. simpl. by apply lookup_insert_ne.
  - intros r' Hne. simpl. by apply list_lookup_insert_ne.
  - intros ch Hlt. simpl. by apply lookup_app_l.
Qed.

Lemma add_then_lookup_witness :
  let s := mkSystem [] [] [mkFacade Receives ∅] [] in
  ∃ s' obj',
    exec s (Add Receives 0 TestModel1) = Some (s', Tau) ∧
    registries s' !! 0 = Some obj' ∧ kind obj' = Receives ∧
    heap s' !! 0 = Some (new_mediator TestModel1) ∧
    (∃ s1, await (Call_agentReceives 0 TestModel1) s'
           = Some (s1, Some (Awaiting 0)) ∧
           heap s1 !! 0 = Some (mkMediator TestModel1 (Some 0) false)) ∧
    (∀ msg, cls_name (msg_class msg) = cls_name TestModel1 →
       facade_send Receives (mediators obj') msg = InDeliver 0 msg D_typecheck) ∧
    (∀ k, k ≠ cls_name TestModel1 →
       mediators obj' !! k = (∅ : gmap string nat) !! k) ∧
    (∀ r', r' ≠ 0 →
       registries s' !! r' = [mkFacade Receives ∅] !! r') ∧
    (∀ ch, ch < 0 → heap s' !! ch = ([] : list Mediator) !! ch).
Proof.
  refine (add_then_lookup (mkSystem [] [] [mkFacade Receives ∅] []) 0
            (mkFacade Receives ∅) TestModel1 _).
  reflexivity.
Defined.

(** ** What every reachable state satisfies *)

(** X4 (keys of a facade).  In every reachable state each entry of a
    facade's dictionary leads to a mediator that exists, and its key is the
    [__name__] of the model that mediator is bound to. *)
Theorem facade_keys_name_models s r obj k ch :
  reachable s →
  registries s !! r = Some obj → mediators obj !! k = Some ch →
  ∃ med, heap s !! ch = Some med ∧ cls_name (_model med) = k.
Proof.
  intros Hreach Hr Hk. by eapply (inv_registry s (reachable_inv s Hreach)).
Qed.

Lemma facade_keys_name_models_witness :
  ∃ med, heap listening_both !! 1 = Some med ∧
         cls_name (_model med) = "TestModel2".
Proof.
  refine (facade_keys_name_models listening_both 0
            (mkFacade Receives (<["TestModel2" := 1]> (<["TestModel1" := 0]> ∅)))
            "TestModel2" 1 _ _ _).
  - exists [NewFacade Receives; Add Receives 0 TestModel1;
            Add Receives 0 TestModel2;
            Spawn (Call_agentReceives 0 TestModel1);
            Run 0; Run 0; Run 0; Run 0; Run 0; Run 0;
            Spawn (Call_agentReceives 0 TestModel2);
            Run 1; Run 1; Run 1; Run 1; Run 1; Run 1].
    eexists. reflexivity.
  - reflexivity.
  - reflexivity.
Defined.

(** X5 (nothing is shared).  In every reachable state a mediator is filed
    under one key of one facade only, and a future sits in the slot of one
    mediator only, where it is a future that was really created. *)
Theorem objects_are_not_shared s :
  reachable s →
  (∀ r1 r2 o1 o2 k1 k2 ch,
     registries s !! r1 = Some o1 → mediators o1 !! k1 = Some ch →
     registries s !! r2 = Some o2 → mediators o2 !! k2 = Some ch →
     r1 = r2 ∧ k1 = k2) ∧
  (∀ ch1 ch2 m1 m2 f,
     heap s !! ch1 = Some m1 → heap s !! ch2 = Some m2 →
     _listener m1 = Some f → _listener m2 = Some f → ch1 = ch2) ∧
  (∀ ch med f,
     heap s !! ch = Some med → _listener med = Some f →
     is_Some (futures s !! f)).
Proof.
  intros Hreach. pose proof (reachable_own s Hreach) as HO. split_and!.
  - apply (own_mediator s HO).
  - apply (own_handle s HO).
  - intros ch med f Hm Hl. apply lookup_lt_is_Some.
    by eapply (own_fresh s HO).
Qed.

Lemma objects_are_not_shared_witness :
  (∀ r1 r2 o1 o2 k1 k2 ch,
     registries listening_both !! r1 = Some o1 → mediators o1 !! k1 = Some ch →
     registries listening_both !! r2 = Some o2 → mediators o2 !! k2 = Some ch →
     r1 = r2 ∧ k1 = k2) ∧
  (∀ ch1 ch2 m1 m2 f,
     heap listening_both !! ch1 = Some m1 →
     heap listening_both !! ch2 = Some m2 →
     _listener m1 = Some f → _listener m2 = Some f → ch1 = ch2) ∧
  (∀ ch med f,
     heap listening_both !! ch = Some med → _listener med = Some f →
     is_Some (futures listening_both !! f)).
Proof.
  apply (objects_are_not_shared listening_both).
  exists [NewFacade Receives; Add Receives 0 TestModel1;
          Add Receives 0 TestModel2;
          Spawn (Call_agentReceives 0 TestModel1);
          Run 0; Run 0; Run 0; Run 0; Run 0; Run 0;
          Spawn (Call_agentReceives 0 TestModel2);
          Run 1; Run 1; Run 1; Run 1; Run 1; Run 1].
  eexists. reflexivity.
Defined.

(** ** What never changes *)

Lemma exec_model s s' a e ch med :
  exec s a = Some (s', e) → heap s !! ch = Some med →
  ∃ med', heap s' !! ch = Some med' ∧ _model med' = _model med.
Proof.
  intros Hex Hm. destruct a as [model|fac|fac r model|c|t|f]; simpl in Hex.
  - simplify_eq. exists med. split; [by apply lookup_app_l_Some|done].
  - simplify_eq. by exists med.
  - destruct (registries s !! r) as [obj|]; simpl in Hex; [|done].
    case_decide; [|done].
    destruct fac; simplify_eq/=; exists med;
      (split; [by apply lookup_app_l_Some|done]).
  - destruct (callable s c); simplify_eq/=. by exists med.
  - destruct (tasks s !! t) as [p|] eqn:Ht; simpl in Hex; [|done].
    assert (is_Some (heap s' !! ch)) as [med' Hmed'].
    { apply lookup_lt_is_Some. rewrite (step_heap_length _ _ _ _ _ Hex).
      by eapply lookup_lt_Some. }
    destruct (step_mediator _ _ _ _ _ _ _ Hex Hmed')
      as (med0 & Hmed0 & Hmodel & _).
    exists med'. split; [done|]. congruence.
  - destruct (futures s !! f) as [[]|]; simplify_eq. by exists med.
Qed.

Lemma run_model acts s s' evs ch med :
  run s acts = Some (s', evs) → heap s !! ch = Some med →
  ∃ med', heap s' !! ch = Some med' ∧ _model med' = _model med.
Proof.
  revert s evs med. induction acts as [|a acts IH]; intros s evs med Hrun Hm;
    simpl in Hrun; [simplify_eq; by eauto|].
  destruct (exec s a) as [[s1 e]|] eqn:Hex; simpl in Hrun; [|done].
  destruct (run s1 acts) as [[s2 evs2]|] eqn:Hrun2; simplify_eq/=.
  destruct (exec_model _ _ _ _ _ _ Hex Hm) as (med1 & Hm1 & Hmodel1).
  destruct (IH _ _ _ Hrun2 Hm1) as (med' & Hm' & Hmodel').
  exists med'. split; [done|]. congruence.
Qed.

(** X6 (the bound model is fixed).  Along every schedule a mediator stays
    where it is and stays bound to the model it was created with. *)
Theorem bound_model_is_fixed acts s s' evs ch med :
  run s acts = Some (s', evs) → heap s !! ch = Some med →
  ∃ med', heap s' !! ch = Some med' ∧ _model med' = _model med.
Proof. apply run_model. Qed.

Lemma bound_model_is_fixed_witness :
  ∃ med', heap two_registrations_state !! 0 = Some med' ∧
          _model med' = _model (new_mediator TestModel1).
Proof.
  refine (bound_model_is_fixed (tail two_registrations)
            (mkSystem [new_mediator TestModel1] [] [] [])
            two_registrations_state (tail two_registrations_events) 0
            (new_mediator TestModel1) _ _); reflexivity.
Defined.

Lemma run_done_stable acts s s' evs f st :
  futures s !! f = Some st → done st = true →
  run s acts = Some (s', evs) → futures s' !! f = Some st.
Proof.
  intros Hf Hd. revert s evs Hf.
  induction acts as [|a acts IH]; intros s evs Hf Hrun;
    simpl in Hrun; [by simplify_eq|].
  destruct (exec s a) as [[s1 e]|] eqn:Hex; simpl in Hrun; [|done].
  destruct (run s1 acts) as [[s2 evs2]|] eqn:Hrun2; simplify_eq/=.
  destruct (exec_done_future _ _ _ _ _ _ Hf Hd Hex) as [Hf1 _].
  by eapply IH.
Qed.

(** X7 (a done future is final).  Once a future is resolved or cancelled,
    no schedule changes it again and no sender resolves it: the guard
    [if not self._listener.done()] keeps [set_result] away from it. *)
Theorem done_future_is_final acts s s' evs f st :
  futures s !! f = Some st → done st = true →
  run s acts = Some (s', evs) →
  futures s' !! f = Some st ∧ ∀ t c m, Fulfil t c f m ∉ evs.
Proof.
  intros Hf Hd Hrun. split; [by eapply run_done_stable|by eapply run_done_future].
Qed.

Lemma done_future_is_final_witness :
  futures (mkSystem [new_mediator TestModel1] [Cancelled] []
             [Done (Returned VNone)]) !! 0 = Some Cancelled ∧
  ∀ t c m', Fulfil t c 0 m' ∉ [Tau; Tau; Tau; Tau; Tau; Disarm 0 0].
Proof.
  refine (done_future_is_final
            [Spawn (Call_deliver_message 0 (Message TestModel1 "zu spaet"));
             Run 0; Run 0; Run 0; Run 0; Run 0]
            (mkSystem [mkMediator TestModel1 (Some 0) false] [Cancelled] [] [])
            _ _ 0 Cancelled _ _ _); reflexivity.
Defined.

(** ** What is delivered *)

Lemma exec_fulfil_typed s s' a t ch f m :
  Inv s → exec s a = Some (s', Fulfil t ch f m) →
  ∃ med, heap s !! ch = Some med ∧ isinstance m (_model med) = true.
Proof.
  intros HI Hex. destruct a as [model|fac|fac r model|c|t'|f']; simpl in Hex;
    try by simplify_eq.
  - destruct (registries s !! r) as [obj|]; simpl in Hex; [|done].
    case_decide; [|done]. destruct fac; by simplify_eq/=.
  - destruct (callable s c); by simplify_eq/=.
  - destruct (tasks s !! t') as [p|] eqn:Ht; simpl in Hex; [|done].
    destruct (step_fulfil _ _ _ _ _ _ _ _ Hex) as (-> & _ & _ & _).
    destruct (inv_tasks s HI t' _ Ht ch eq_refl) as (med & Hmed & Hok).
    exists med. split; [done|]. simpl in Hok. by apply andb_prop in Hok as [? _].
  - destruct (futures s !! f') as [[]|]; by simplify_eq.
Qed.

Lemma run_fulfil_typed acts s s' evs t ch f m :
  Inv s → run s acts = Some (s', evs) → Fulfil t ch f m ∈ evs →
  ∃ med, heap s' !! ch = Some med ∧ isinstance m (_model med) = true ∧
         futures s' !! f = Some (Finished m).
Proof.
  revert s evs. induction acts as [|a acts IH]; intros s evs HI Hrun Hin;
    simpl in Hrun; [simplify_eq; by inversion Hin|].
  destruct (exec s a) as [[s1 e]|] eqn:Hex; simpl in Hrun; [|done].
  destruct (run s1 acts) as [[s2 evs2]|] eqn:Hrun2; simplify_eq/=.
  apply elem_of_cons in Hin as [<-|Hin].
  - destruct (exec_fulfil_typed _ _ _ _ _ _ _ HI Hex) as (med & Hmed & Hi).
    destruct (exec_model _ _ _ _ _ _ Hex Hmed) as (med1 & Hm1 & Hmodel1).
    destruct (run_model _ _ _ _ _ _ Hrun2 Hm1)
      as (med' & Hm' & Hmodel').
    exists med'. split_and!; [done|congruence|].
    eapply (run_done_stable acts s1); [by eapply exec_fulfil|done..].
  - eapply IH; [by eapply exec_inv|done..].
Qed.

(** X8 (what a listener gets).  Whenever a sender has resolved a future
    through a mediator, the message is an instance of the model that
    mediator is bound to, and the future holds that message from then
    on. *)
Theorem delivered_messages_are_typed acts s evs t ch f m :
  run init acts = Some (s, evs) → Fulfil t ch f m ∈ evs →
  ∃ med, heap s !! ch = Some med ∧ isinstance m (_model med) = true ∧
         futures s !! f = Some (Finished m).
Proof. intros Hrun Hin. by eapply run_fulfil_typed; [apply init_inv|..]. Qed.

Lemma delivered_messages_are_typed_witness :
  ∃ med, heap two_registrations_state !! 0 = Some med ∧
         isinstance (Message TestModel1 "eins") (_model med) = true ∧
         futures two_registrations_state !! 0
         = Some (Finished (Message TestModel1 "eins")).
Proof.
  refine (delivered_messages_are_typed two_registrations
            two_registrations_state two_registrations_events 1 0 0
            (Message TestModel1 "eins") _ _).
  - reflexivity.
  - unfold two_registrations_events.
    do 11 apply list_elem_of_further. apply list_elem_of_here.
Defined.

(** ** What never happens *)

Lemma step_own_clean p t s s' e q :
  Inv s → tasks s !! t = Some p → step p t s = Some (s', e) →
  tasks s' !! t = Some q → clean q = true.
Proof.
  intros HI Ht Hstep Hq.
  assert (Hlt : t < length (tasks s)) by (by eapply lookup_lt_Some).
  destruct p as [k self r|self m r|fac r model|fac r m|f|res].
  - destruct (inv_tasks s HI t _ Ht self eq_refl) as (med & Hmed & Hok).
    destruct med as [model l lk]; unfold occupied in Hok; simpl in Hok.
    destruct r; step_cases Hstep; bool_facts; simpl in Hq;
      rewrite list_lookup_insert_eq in Hq by lengths; by simplify_eq.
  - destruct (inv_tasks s HI t _ Ht self eq_refl) as (med & Hmed & Hok).
    destruct med as [model l lk]; unfold occupied in Hok; simpl in Hok.
    destruct r; step_cases Hstep; bool_facts; simpl in Hq;
      rewrite list_lookup_insert_eq in Hq by lengths; by simplify_eq.
  - step_cases Hstep; simpl in Hq;
      rewrite list_lookup_insert_eq in Hq by lengths; by simplify_eq.
  - step_cases Hstep; simpl in Hq;
      rewrite list_lookup_insert_eq in Hq by lengths; by simplify_eq.
  - step_cases Hstep; simpl in Hq;
      rewrite list_lookup_insert_eq in Hq by lengths; by simplify_eq.
  - done.
Qed.

Lemma wake_like_clean W p : wake_like W → clean (W p) = clean p.
Proof. intros HW. destruct (HW p) as [->|(c & m & -> & ->)]; done. Qed.

Lemma exec_clean s s' a e :
  Inv s → all_clean s → exec s a = Some (s', e) → all_clean s'.
Proof.
  intros HI Hc Hex. destruct a as [model|fac|fac r model|c|t|f]; simpl in Hex.
  - by simplify_eq.
  - by simplify_eq.
  - destruct (registries s !! r) as [obj|]; simpl in Hex; [|done].
    case_decide; [|done]. destruct fac; by simplify_eq/=.
  - destruct (callable s c); simplify_eq/=. intros t p Hp; simpl in Hp.
    apply lookup_app_Some in Hp as [Hp|[_ Hp]]; [by eapply Hc|].
    apply list_lookup_singleton_Some in Hp as [_ <-]. by destruct c.
  - destruct (tasks s !! t) as [p|] eqn:Ht; simpl in Hex; [|done].
    intros t' q Hq. destruct (decide (t' = t)) as [->|Hne].
    + by eapply step_own_clean.
    + destruct (step_summary _ _ _ _ _ HI Ht Hex) as (p' & W & HW & Hts & _).
      rewrite Hts, list_lookup_insert_ne, list_lookup_fmap in Hq by done.
      destruct (tasks s !! t') as [q0|] eqn:Hq0; simpl in Hq; [|done].
      injection Hq as <-. rewrite wake_like_clean by done. by eapply Hc.
  - destruct (futures s !! f) as [[]|]; by simplify_eq.
Qed.

Lemma run_clean acts s s' evs :
  Inv s → all_clean s → run s acts = Some (s', evs) → all_clean s'.
Proof.
  revert s evs. induction acts as [|a acts IH]; intros s evs HI Hc Hrun;
    simpl in Hrun; [by simplify_eq|].
  destruct (exec s a) as [[s1 e]|] eqn:Hex; simpl in Hrun; [|done].
  destruct (run s1 acts) as [[s2 evs2]|] eqn:Hrun2; simplify_eq/=.
  eapply IH; [by eapply exec_inv|by eapply exec_clean|done].
Qed.

(** X9 (no stray exception).  In every reachable state a task that ended
    with an exception ended with [ListenerConflict], [TypeMismatch],
    [UnknownType] or the [CancelledError] of its future: [deliver_message]
    never calls [done()] on [None], and [register_listener] never returns
    [None] to a caller that awaits it. *)
Theorem only_documented_exceptions s t e :
  reachable s → tasks s !! t = Some (Done (Raised e)) →
  e = ListenerConflict ∨ e = TypeMismatch ∨ e = UnknownType ∨
  e = CancelledError.
Proof.
  intros (acts & evs & Hrun) Ht.
  assert (Hc : all_clean s).
  { eapply run_clean; [apply init_inv| |done]. by intros []. }
  specialize (Hc t _ Ht). destruct e; simpl in Hc; auto; done.
Qed.

Lemma only_documented_exceptions_witness :
  ListenerConflict = ListenerConflict ∨ ListenerConflict = TypeMismatch ∨
  ListenerConflict = UnknownType ∨ ListenerConflict = CancelledError.
Proof.
  refine (only_documented_exceptions
            (mkSystem [mkMediator TestModel1 (Some 0) false] [Pending] []
               [Done (Returned (VFuture 0)); Done (Raised ListenerConflict)])
            1 ListenerConflict _ _).
  - exists [NewMediator TestModel1;
            Spawn (Call_register_listener 0); Run 0; Run 0; Run 0; Run 0; Run 0;
            Spawn (Call_register_listener 0); Run 1; Run 1].
    eexists. reflexivity.
  - reflexivity.
Defined.

(** ** The lock *)

Ltac lock_case :=
  first
    [ done
    | left; eexists; split;
      [first [reflexivity|simpl; apply list_lookup_insert_eq; lengths]
      |reflexivity]
    | right; split; [done|simpl; congruence] ].

Lemma step_lock_summary p t s s' e ch med' :
  Inv s → tasks s !! t = Some p → step p t s = Some (s', e) →
  heap s' !! ch = Some med' → _locked med' = true →
  (∃ q, tasks s' !! t = Some q ∧ holder q = Some ch) ∨
  (heap s !! ch = Some med' ∧ holder p ≠ Some ch).
Proof.
  intros HI Ht Hstep Hm Hl.
  assert (Hlt : t < length (tasks s)) by (by eapply lookup_lt_Some).
  destruct p as [k self r|self m r|fac r model|fac r m|f|res].
  - destruct (inv_tasks s HI t _ Ht self eq_refl) as (med & Hmed & Hok).
    assert (Hlc : self < length (heap s)) by (by eapply lookup_lt_Some).
    destruct (decide (self = ch)) as [->|Hne].
    + destruct med as [model l lk]; unfold occupied in Hok; simpl in Hok.
      revert Hm Hl.
      destruct r; step_cases Hstep; bool_facts; simpl;
        rewrite ?list_lookup_insert_eq by lengths;
        intros Hm Hl; simplify_eq/=; lock_case.
    + right. rewrite <- (step_heap_other _ _ _ _ _ ch Hstep)
        by (simpl; congruence).
      split; [done|]. destruct r; simpl; congruence.
  - destruct (inv_tasks s HI t _ Ht self eq_refl) as (med & Hmed & Hok).
    assert (Hlc : self < length (heap s)) by (by eapply lookup_lt_Some).
    destruct (decide (self = ch)) as [->|Hne].
    + destruct med as [model l lk]; unfold occupied in Hok; simpl in Hok.
      revert Hm Hl.
      destruct r; step_cases Hstep; bool_facts; simpl;
        rewrite ?list_lookup_insert_eq by lengths;
        intros Hm Hl; simplify_eq/=; lock_case.
    + right. rewrite <- (step_heap_other _ _ _ _ _ ch Hstep)
        by (simpl; congruence).
      split; [done|]. destruct r; simpl; congruence.
  - right. rewrite <- (step_heap_other _ _ _ _ _ ch Hstep) by done. done.
  - right. rewrite <- (step_heap_other _ _ _ _ _ ch Hstep) by done. done.
  - right. rewrite <- (step_heap_other _ _ _ _ _ ch Hstep) by done. done.
  - done.
Qed.

Lemma step_lock p t s s' e :
  Inv s → lock_has_holder s → tasks s !! t = Some p →
  step p t s = Some (s', e) → lock_has_holder s'.
Proof.
  intros HI HL Ht Hstep ch med' Hm Hl.
  destruct (step_lock_summary _ _ _ _ _ _ _ HI Ht Hstep Hm Hl)
    as [(q & Hq & Hh)|[Hm0 Hne]]; [by eauto|].
  destruct (HL ch med' Hm0 Hl) as (t1 & p1 & Hp1 & Hh1).
  assert (t1 ≠ t) by (intros ->; congruence).
  destruct (step_summary _ _ _ _ _ HI Ht Hstep) as (p' & W & HW & Hts & _).
  exists t1, (W p1). split.
  - by rewrite Hts, list_lookup_insert_ne, list_lookup_fmap, Hp1.
  - by rewrite wake_like_holder.
Qed.

Lemma grow_lock s s' model :
  lock_has_holder s → heap s' = heap s ++ [new_mediator model] →
  tasks s' = tasks s → lock_has_holder s'.
Proof.
  intros HL Hh Hts ch med Hm Hl. rewrite Hts. rewrite Hh in Hm.
  apply lookup_app_Some in Hm as [Hm|[_ Hm]]; [by eapply HL|].
  apply list_lookup_singleton_Some in Hm as [_ <-]. done.
Qed.

Lemma exec_lock s s' a e :
  Inv s → lock_has_holder s → exec s a = Some (s', e) → lock_has_holder s'.
Proof.
  intros HI HL Hex. destruct a as [model|fac|fac r model|c|t|f]; simpl in Hex.
  - simplify_eq. by eapply grow_lock.
  - by simplify_eq.
  - destruct (registries s !! r) as [obj|]; simpl in Hex; [|done].
    case_decide; [|done]. destruct fac; simplify_eq/=; by eapply grow_lock.
  - destruct (callable s c); simplify_eq/=. intros ch med Hm Hl.
    destruct (HL ch med Hm Hl) as (t & p & Hp & Hh). exists t, p.
    split; [by apply lookup_app_l_Some|done].
  - destruct (tasks s !! t) as [p|] eqn:Ht; simpl in Hex; [|done].
    by eapply step_lock.
  - destruct (futures s !! f) as [[]|]; by simplify_eq.
Qed.

Lemma run_lock acts s s' evs :
  Inv s → lock_has_holder s → run s acts = Some (s', evs) →
  lock_has_holder s'.
Proof.
  revert s evs. induction acts as [|a acts IH]; intros s evs HI HL Hrun;
    simpl in Hrun; [by simplify_eq|].
  destruct (exec s a) as [[s1 e]|] eqn:Hex; simpl in Hrun; [|done].
  destruct (run s1 acts) as [[s2 evs2]|] eqn:Hrun2; simplify_eq/=.
  eapply IH; [by eapply exec_inv|by eapply exec_lock|done].
Qed.

(** Inside the critical section nothing waits: the only [await] there is
    [wait()], which gives the lock back first. *)
Lemma holder_enabled s t p ch :
  Inv s → tasks s !! t = Some p → holder p = Some ch →
  is_Some (exec s (Run t)).
Proof.
  intros HI Ht Hh.
  destruct (inv_tasks s HI t p Ht ch (holder_chan _ _ Hh)) as (med & Hmed & _).
  simpl. rewrite Ht. simpl.
  destruct p as [k self r|self m r| | | |]; simpl in Hh; try done;
    destruct r; simplify_eq; simpl;
    unfold register_listener, deliver_message; rewrite Hmed; simpl;
    repeat case_match; eauto.
Qed.

(** X10 (the lock is never left behind).  In every reachable state a
    mediator whose lock is taken has a task inside its critical section,
    and that task can make its next step: every way out of the [async with]
    block, the [raise] included, gives the lock back. *)
Theorem lock_is_never_left_behind s ch med :
  reachable s → heap s !! ch = Some med → _locked med = true →
  ∃ t p, tasks s !! t = Some p ∧ holder p = Some ch ∧
         is_Some (exec s (Run t)).
Proof.
  intros Hreach Hm Hl. pose proof (reachable_inv s Hreach) as HI.
  destruct Hreach as (acts & evs & Hrun).
  assert (HL : lock_has_holder s).
  { eapply run_lock; [apply init_inv| |done]. by intros []. }
  destruct (HL ch med Hm Hl) as (t & p & Hp & Hh).
  exists t, p. split_and!; [done..|]. by eapply holder_enabled.
Qed.

Lemma lock_is_never_left_behind_witness :
  let s := mkSystem [mkMediator TestModel1 (Some 0) true] [Pending] []
             [Done (Returned (VFuture 0)); InRegister KReturn 0 R_check] in
  ∃ t p, tasks s !! t = Some p ∧ holder p = Some 0 ∧
         is_Some (exec s (Run t)).
Proof.
  refine (lock_is_never_left_behind
            (mkSystem [mkMediator TestModel1 (Some 0) true] [Pending] []
               [Done (Returned (VFuture 0)); InRegister KReturn 0 R_check])
            0 (mkMediator TestModel1 (Some 0) true) _ _ _).
  - exists [NewMediator TestModel1;
            Spawn (Call_register_listener 0); Run 0; Run 0; Run 0; Run 0; Run 0;
            Spawn (Call_register_listener 0); Run 1].
    eexists. reflexivity.
  - reflexivity.
  - reflexivity.
Defined.

(** ** What a registration leaves alone *)

Lemma wake_other ch p : (∀ m, p ≠ InDeliver ch m D_wait) → wake ch p = p.
Proof.
  intros Hne. destruct p as [|c m []| | | |]; simpl; try done.
  case_decide; [|done]. subst. by destruct (Hne m).
Qed.

(** X11 (a registration touches its own mediator only).  A successful
    [register_listener] changes its own mediator, adds one future and wakes
    the senders parked on its own condition; every other mediator, every
    future that existed, the facades and every other task, the senders
    parked on other mediators among them, are as before. *)
Theorem register_touches_its_own_only s ch med :
  heap s !! ch = Some med → _locked med = false → _listener med = None →
  ∃ s1,
    await (Call_register_listener ch) s
    = Some (s1, Some (Done (Returned (VFuture (length (futures s)))))) ∧
    (∀ ch', ch' ≠ ch → heap s1 !! ch' = heap s !! ch') ∧
    (∀ f, f < length (futures s) → futures s1 !! f = futures s !! f) ∧
    registries s1 = registries s ∧
    (∀ t p, tasks s !! t = Some p → (∀ m, p ≠ InDeliver ch m D_wait) →
       tasks s1 !! t = Some p).
Proof.
  intros Hm Hl Hn. eexists. split; [by apply await_register_idle|].
  cbn [heap futures registries tasks]. split_and!.
  - intros ch' Hne. by apply list_lookup_insert_ne.
  - intros f Hf. by apply lookup_app_l.
  - done.
  - intros t p Hp Hne. apply lookup_app_l_Some.
    rewrite list_lookup_fmap, Hp. simpl. by rewrite (wake_other ch p Hne).
Qed.

Lemma register_touches_its_own_only_witness :
  let s := mkSystem [new_mediator TestModel1; new_mediator TestModel2] [] []
             [InDeliver 1 (Message TestModel2 "b") D_wait] in
  ∃ s1,
    await (Call_register_listener 0) s
    = Some (s1, Some (Done (Returned (VFuture 0)))) ∧
    (∀ ch', ch' ≠ 0 → heap s1 !! ch' = heap s !! ch') ∧
    (∀ f, f < 0 → futures s1 !! f = futures s !! f) ∧
    registries s1 = registries s ∧
    (∀ t p, tasks s !! t = Some p → (∀ m, p ≠ InDeliver 0 m D_wait) →
       tasks s1 !! t = Some p).
Proof.
  refine (register_touches_its_own_only
            (mkSystem [new_mediator TestModel1; new_mediator TestModel2] [] []
               [InDeliver 1 (Message TestModel2 "b") D_wait])
            0 (new_mediator TestModel1) _ _ _); reflexivity.
Defined.

(** ** The receiver's wait *)

Lemma exec_awaits s s' a e t f :
  Inv s → tasks s !! t = Some (Awaiting f) → futures s !! f = Some Pending →
  exec s a = Some (s', e) → a ≠ Cancel f → (∀ t' c m, e ≠ Fulfil t' c f m) →
  tasks s' !! t = Some (Awaiting f) ∧ futures s' !! f = Some Pending.
Proof.
  intros HI Ht Hf Hex Hnc Hnf.
  destruct a as [model|fac|fac r model|c|t'|f']; simpl in Hex.
  - by simplify_eq.
  - by simplify_eq.
  - destruct (registries s !! r) as [obj|]; simpl in Hex; [|done].
    case_decide; [|done]. destruct fac; by simplify_eq/=.
  - destruct (callable s c); simplify_eq/=.
    split; [by apply lookup_app_l_Some|done].
  - destruct (tasks s !! t') as [p|] eqn:Ht'; simpl in Hex; [|done].
    destruct (decide (t' = t)) as [->|Hne].
    { rewrite Ht in Ht'. injection Ht' as <-. simpl in Hex.
      unfold await_future in Hex. by rewrite Hf in Hex. }
    destruct (step_summary _ _ _ _ _ HI Ht' Hex) as (p' & W & HW & Hts & _).
    split.
    + rewrite Hts, list_lookup_insert_ne, list_lookup_fmap, Ht by done.
      simpl. destruct (HW (Awaiting f)) as [->|(c & m & ? & _)]; done.
    + destruct (step_futures _ _ _ _ _ Hex)
        as [->|[->|(ch & med & f0 & m & _ & -> & _ & _ & _ & ->)]];
        [done|by apply lookup_app_l_Some|].
      rewrite list_lookup_insert_ne; [done|]. intros ->.
      by destruct (Hnf t' ch m).
  - destruct (futures s !! f') as [[]|] eqn:Hf'; simplify_eq.
    split; [done|]. simpl. rewrite list_lookup_insert_ne; [done|].
    intros ->. by destruct Hnc.
Qed.

(** X12 (the receiver waits for its future).  A facade's receiving method
    that is suspended on its future stays suspended, under every schedule,
    until a sender resolves that very future or its holder cancels it; and
    once the future holds a message, the receiver's next step returns
    exactly that message. *)
Theorem receiver_waits_for_its_future acts s s' evs t f :
  reachable s →
  tasks s !! t = Some (Awaiting f) → futures s !! f = Some Pending →
  run s acts = Some (s', evs) →
  Cancel f ∉ acts → (∀ t' c m, Fulfil t' c f m ∉ evs) →
  tasks s' !! t = Some (Awaiting f) ∧ futures s' !! f = Some Pending ∧
  exec s' (Run t) = None ∧
  ∀ m, exec (set_future f (Finished m) s') (Run t)
       = Some (set_task t (Done (Returned (VMessage m)))
                 (set_future f (Finished m) s'), Tau).
Proof.
  intros Hreach Ht Hf Hrun Hnc Hnf.
  pose proof (reachable_inv s Hreach) as HI. clear Hreach.
  assert (Hwait : tasks s' !! t = Some (Awaiting f) ∧
                  futures s' !! f = Some Pending).
  { revert s evs HI Ht Hf Hrun Hnc Hnf.
    induction acts as [|a acts IH]; intros s evs HI Ht Hf Hrun Hnc Hnf;
      simpl in Hrun; [by simplify_eq|].
    destruct (exec s a) as [[s1 e]|] eqn:Hex; simpl in Hrun; [|done].
    destruct (run s1 acts) as [[s2 evs2]|] eqn:Hrun2; simplify_eq/=.
    destruct (exec_awaits _ _ _ _ _ _ HI Ht Hf Hex) as [Ht1 Hf1].
    - intros ->. apply Hnc. by left.
    - intros t' c m ->. apply (Hnf t' c m). by left.
    - eapply (IH s1 evs2); [by eapply exec_inv|done..| |].
      + intros Hin. apply Hnc. by right.
      + intros t' c m Hin. apply (Hnf t' c m). by right. }
  destruct Hwait as [Ht' Hf']. split_and!; [done..| |].
  - by eapply exec_awaiting_pending.
  - intros m. simpl. rewrite Ht'. simpl. unfold await_future. simpl.
    rewrite list_lookup_insert_eq by (by eapply lookup_lt_Some). done.
Qed.

Lemma receiver_waits_for_its_future_witness :
  let s' := mkSystem [mkMediator TestModel1 (Some 0) false;
                      new_mediator TestModel2]
              [Pending] [mkFacade Receives {["TestModel1" := 0]}]
              [Awaiting 0] in
  tasks s' !! 0 = Some (Awaiting 0) ∧ futures s' !! 0 = Some Pending ∧
  exec s' (Run 0) = None ∧
  ∀ m, exec (set_future 0 (Finished m) s') (Run 0)
       = Some (set_task 0 (Done (Returned (VMessage m)))
                 (set_future 0 (Finished m) s'), Tau).
Proof.
  refine (receiver_waits_for_its_future [NewMediator TestModel2] listening
            (mkSystem [mkMediator TestModel1 (Some 0) false;
                       new_mediator TestModel2]
               [Pending] [mkFacade Receives {["TestModel1" := 0]}]
               [Awaiting 0])
            [Tau] 0 0 _ _ _ _ _ _).
  - exists [NewFacade Receives; Add Receives 0 TestModel1;
            Spawn (Call_agentReceives 0 TestModel1);
            Run 0; Run 0; Run 0; Run 0; Run 0; Run 0].
    eexists. reflexivity.
  - reflexivity.
  - reflexivity.
  - reflexivity.
  - intros Hin. apply list_elem_of_singleton in Hin. discriminate.
  - intros t' c m Hin. apply list_elem_of_singleton in Hin. discriminate.
Defined.

(** ** Sending before anyone listens *)

(** The sending method on a free, idle mediator: it parks. *)
Lemma await_send_idle s r obj msg ch med :
  registries s !! r = Some obj →
  mediators obj !! cls_name (msg_class msg) = Some ch →
  heap s !! ch = Some med → _locked med = false → _listener med = None →
  isinstance msg (_model med) = true →
  await (send_call (kind obj) r msg) s =
  Some (mkSystem (heap s) (futures s) (registries s)
          (tasks s ++ [InDeliver ch msg D_wait]),
        Some (InDeliver ch msg D_wait)).
Proof.
  intros Hr Hk Hm Hl Hn Hi. rewrite (await_send s r obj msg ch) by done.
  cbv zeta.
  rewrite (deliver_idle _ _ ch med msg 4);
    [|apply lookup_last|done..].
  unfold set_task. cbn [tasks heap futures registries].
  by rewrite insert_last, lookup_last.
Qed.

(** X13 (a message sent early is not lost).  On a facade whose mediator for
    [model] is idle: the sending method, called first with an instance of
    [model], parks; the receiving method, called next, registers, wakes the
    sender and suspends; the sender, resumed, delivers and returns; the
    receiver, resumed, returns exactly the message that was sent. *)
Theorem facade_send_before_receive s r obj model ch med msg :
  registries s !! r = Some obj →
  mediators obj !! cls_name model = Some ch →
  heap s !! ch = Some med → _locked med = false → _listener med = None →
  _model med = model → msg_class msg = model →
  ∃ s1 s2 s4,
    await (send_call (kind obj) r msg) s
      = Some (s1, Some (InDeliver ch msg D_wait)) ∧
    await (receive_call (kind obj) r model) s1
      = Some (s2, Some (Awaiting (length (futures s)))) ∧
    tasks s2 !! length (tasks s) = Some (InDeliver ch msg D_woken) ∧
    tasks (drive 8 (length (tasks s)) s2) !! length (tasks s)
      = Some (Done (Returned VNone)) ∧
    exec (drive 8 (length (tasks s)) s2) (Run (S (length (tasks s))))
      = Some (s4, Tau) ∧
    tasks s4 !! S (length (tasks s)) = Some (Done (Returned (VMessage msg))) ∧
    heap s4 !! ch = Some (new_mediator model).
Proof.
  intros Hr Hk Hm Hl Hn Hmodel Hmsg.
  assert (Hlc : ch < length (heap s)) by (by eapply lookup_lt_Some).
  assert (Hi : isinstance msg (_model med) = true)
    by (rewrite Hmodel, <- Hmsg; apply isinstance_own).
  set (L := length (futures s)).
  set (ts := length (tasks s)).
  set (pool := (wake ch <$> (tasks s ++ [InDeliver ch msg D_wait]))
                 ++ [Awaiting L]).
  assert (Hts : pool !! ts = Some (InDeliver ch msg D_woken)).
  { subst pool ts. apply lookup_app_l_Some.
    rewrite list_lookup_fmap, lookup_last. simpl. by rewrite decide_True. }
  assert (Htr : pool !! S ts = Some (Awaiting L)).
  { subst pool ts. replace (S (length (tasks s)))
      with (length (wake ch <$> (tasks s ++ [InDeliver ch msg D_wait])))
      by (rewrite length_fmap, length_app; simpl; lia).
    apply lookup_last. }
  pose proof (await_receive_idle
                (mkSystem (heap s) (futures s) (registries s)
                   (tasks s ++ [InDeliver ch msg D_wait]))
                r obj model ch med Hr Hk Hm Hl Hn) as Hrecv.
  cbn [heap futures registries tasks] in Hrecv.
  eexists _, _, _. split.
  { eapply await_send_idle; [done|by rewrite Hmsg|done..]. }
  split; [exact Hrecv|].
  cbn [heap futures registries tasks]. fold L. fold pool.
  split; [done|].
  erewrite (woken_armed _ ts ch _ msg L 4);
    [|exact Hts|by apply list_lookup_insert_eq|done..].
  cbn [heap futures registries tasks _model].
  unfold fulfilled. subst L. rewrite lookup_last.
  split.
  { apply list_lookup_insert_eq. eapply lookup_lt_Some. exact Hts. }
  cbn [exec tasks]. rewrite list_lookup_insert_ne by lia. rewrite Htr.
  cbn [mbind option_bind step]. unfold await_future. cbn [futures].
  rewrite list_lookup_insert_eq by (rewrite length_app; simpl; lia).
  split; [reflexivity|]. split.
  - cbn [set_task tasks]. apply list_lookup_insert_eq.
    rewrite length_insert. eapply lookup_lt_Some. exact Htr.
  - cbn [set_task heap]. rewrite Hmodel.
    apply list_lookup_insert_eq. by rewrite length_insert.
Qed.

Lemma facade_send_before_receive_witness :
  let s := mkSystem [new_mediator TestModel1] []
             [mkFacade Receives {["TestModel1" := 0]}] [] in
  let msg := Message TestModel1 "frueh" in
  ∃ s1 s2 s4,
    await (Call_sendToAgent 0 msg) s
      = Some (s1, Some (InDeliver 0 msg D_wait)) ∧
    await (Call_agentReceives 0 TestModel1) s1
      = Some (s2, Some (Awaiting 0)) ∧
    tasks s2 !! 0 = Some (InDeliver 0 msg D_woken) ∧
    tasks (drive 8 0 s2) !! 0 = Some (Done (Returned VNone)) ∧
    exec (drive 8 0 s2) (Run 1) = Some (s4, Tau) ∧
    tasks s4 !! 1 = Some (Done (Returned (VMessage msg))) ∧
    heap s4 !! 0 = Some (new_mediator TestModel1).
Proof.
  refine (facade_send_before_receive
            (mkSystem [new_mediator TestModel1] []
               [mkFacade Receives {["TestModel1" := 0]}] [])
            0 (mkFacade Receives {["TestModel1" := 0]}) TestModel1 0
            (new_mediator TestModel1) (Message TestModel1 "frueh")
            _ _ _ _ _ _ _); reflexivity.
Defined.
